(** * Redlock: a quorum lock coordinator over independent Redis stores

    Shallow embedding of the TypeScript sources

    - [Redlock.ts]                        (the coordinator),
    - [RedisClient.ts]                    (the store interface),
    - [adapters/IORedisAdapter.ts], [adapters/NodeRedisAdapter.ts] and the
      two further revisions of these adapters found in the repository,

    followed by the properties of the coordinator.

    Conventions of the embedding.

    - A JavaScript [number] that holds a count or a duration in milliseconds
      is an integer of [Z]; the clock-drift factor [0.01] is the rational
      [1 # 100] and [Math.floor] is [Qfloor].  Module [Binary64] replays
      the drift computation on IEEE-754 doubles; both agree for every ttl
      of up to 10 seconds.
    - An [async] function is a state transformer that ends in a
      [Completion]: the promise is fulfilled ([Return]) or rejected
      ([Throw]).  The state holds the outside world (stores, clock,
      randomness) and the log of what the coordinator did: the calls it
      issued to the stores, the events it emitted, the timers it awaited.
    - A call of an [async] function runs its body up to the first [await]
      and returns a promise for the rest.  [clients.map(async ...)] so
      issues the calls to all the stores, in array order, before any reply
      is looked at; each store acts on its call when it is issued.
      [Promise.all] then runs what is left of every body, in array order,
      and rejects with the first rejection if there is one.
    - [emit] appends to the log: an [Emitted] entry records the call of
      [emit].  Of the listeners the model keeps the number of those for
      ['error']: [emit('error', e)] without such a listener throws [e]. *)

From Stdlib Require Import ZArith QArith Qround String Ascii Lia.
From Stdlib.Strings Require Import Byte.
From Stdlib Require SpecFloat.
From stdpp Require Import base list gmap strings.

Close Scope Q_scope.
Local Open Scope Z_scope.

(** ** JavaScript values *)

(** [new Error(message)]. *)
Inductive JsError : Type :=
| Error (message : string).

(** How a promise settles. *)
Inductive Completion (A : Type) : Type :=
| Return (value : A)
| Throw (reason : JsError).

Arguments Return {A} value.
Arguments Throw {A} reason.

(** [x || d] for an optional number: [undefined] and [0] are falsy. *)
Definition js_or (x : option Z) (d : Z) : Z :=
  match x with
  | Some v => if v =? 0 then d else v
  | None => d
  end.

(** [Buffer.toString('hex')]. *)
Definition hex_digit (n : N) : ascii :=
  match String.get (N.to_nat n) "0123456789abcdef"%string with
  | Some c => c
  | None => "0"%char
  end.

Definition hex_of_byte (b : byte) : string :=
  let n := Byte.to_N b in
  String (hex_digit (n / 16)%N) (String (hex_digit (n mod 16)%N) EmptyString).

Definition toString_hex (bs : list byte) : string :=
  fold_right (fun b acc => String.append (hex_of_byte b) acc) EmptyString bs.

(** ** RedisClient.ts: the store interface *)

(** The reply of [set]: ['OK' | null]. *)
Inductive SetReply : Type :=
| OK
| null.

(** [options?: { nx?: boolean; px?: number }]. *)
Record SetOptions : Type := mkSetOptions {
  nx : option bool;
  px : option Z
}.

(** The two Lua scripts of the coordinator.
    [unlockScript]: if redis.call(get, KEYS[1]) == ARGV[1]
                    then return redis.call(del, KEYS[1]) else return 0 end
    [extendScript]: if redis.call(get, KEYS[1]) == ARGV[1]
                    then return redis.call(pexpire, KEYS[1], ARGV[2])
                    else return 0 end *)
Inductive Script : Type :=
| unlockScript
| extendScript.

(** [args: (string | number)[]]. *)
Inductive Arg : Type :=
| ArgStr (s : string)
| ArgNum (n : Z).

(** [interface RedisClient], over the world its calls act on.  The
    methods [set] and [eval] are [client_set] and [client_eval] here; the
    coordinator always passes the options of [set]. *)
Record RedisClient (World : Type) : Type := mkRedisClient {
  client_set : string -> string -> SetOptions -> World -> Completion SetReply * World;
  client_eval : Script -> list string -> list Arg -> World -> Completion Z * World
}.

Arguments client_set {World} _ _ _ _ _.
Arguments client_eval {World} _ _ _ _ _.

(** What the coordinator needs from its host besides the stores. *)
Class Runtime (World : Type) : Type := mkRuntime {
  randomBytes : nat -> World -> list byte * World;
  Date_now : World -> Z * World;
  setTimeout : Z -> World -> World
}.

(** ** Events and the log *)

(** The events of the [EventEmitter]; a store is named by its index in
    [clients]. *)
Inductive Event : Type :=
| lockAcquired (resource lockId : string) (validityTime : Z)
| attemptFailed (resource lockId : string) (attempts : Z)
| lockReleased (resource lockId : string)
| lockExtended (resource lockId : string) (ttl : Z)
| lockError (client : nat) (err : JsError)
| unlockError (client : nat) (err : JsError)
| extendError (client : nat) (err : JsError)
| error (err : JsError).

Inductive Entry : Type :=
| CalledSet (client : nat) (key value : string) (options : SetOptions)
| CalledEval (client : nat) (script : Script) (keys : list string) (args : list Arg)
| Emitted (ev : Event)
| Slept (ms : Z).

Record State (World : Type) : Type := mkState {
  world : World;
  log : list Entry
}.

Arguments mkState {World} world log.
Arguments world {World} _.
Arguments log {World} _.

(** ** Promises *)

Definition Async (World A : Type) : Type :=
  State World -> Completion A * State World.

Definition ret {World A} (a : A) : Async World A :=
  fun s => (Return a, s).

Definition throw {World A} (e : JsError) : Async World A :=
  fun s => (Throw e, s).

Definition bind {World A B} (m : Async World A) (k : A -> Async World B) : Async World B :=
  fun s =>
    match m s with
    | (Return a, s') => k a s'
    | (Throw e, s') => (Throw e, s')
    end.

Notation "x <- m ;; k" := (bind m (fun x => k))
  (at level 100, m at level 99, k at level 200, right associativity).
Notation "m ;;; k" := (bind m (fun _ => k))
  (at level 100, k at level 200, right associativity).

(** [try { m } catch (error) { h error }]. *)
Definition try_catch {World A} (m : Async World A) (h : JsError -> Async World A) : Async World A :=
  fun s =>
    match m s with
    | (Return a, s') => (Return a, s')
    | (Throw e, s') => h e s'
    end.

Definition record {World} (e : Entry) : Async World unit :=
  fun s => (Return tt, mkState (world s) (log s ++ [e])).

(** [this.emit(name, payload)]. *)
Definition emit {World} (ev : Event) : Async World unit :=
  record (Emitted ev).

(** An effect of the host on the world. *)
Definition perform {World A} (f : World -> A * World) : Async World A :=
  fun s => let (a, w) := f (world s) in (Return a, mkState w (log s)).

(** A promise: what is left to run until it settles. *)
Definition Promise (World A : Type) : Type := Async World A.

(** [await p]. *)
Definition await {World A} (p : Promise World A) : Async World A := p.

(** A call to a store.  The request leaves with the call and the store
    acts on it; the promise returned delivers the reply or the
    rejection. *)
Definition request {World A} (f : World -> Completion A * World)
  : Async World (Promise World A) :=
  fun s => let (c, w) := f (world s) in (Return (fun s' => (c, s')), mkState w (log s)).

(** The call of an [async] function: the body runs up to its first
    [await] and the call returns the promise of the rest; a body that
    throws before that gives a rejected promise. *)
Definition async {World A} (body : Async World (Promise World A))
  : Async World (Promise World A) :=
  fun s =>
    match body s with
    | (Return rest, s') => (Return rest, s')
    | (Throw e, s') => (Return (throw e), s')
    end.

(** [array.map(async ...)], on the list of the calls: one after the
    other, in array order. *)
Fixpoint map_async {World A} (calls : list (Async World (Promise World A)))
  : Async World (list (Promise World A)) :=
  match calls with
  | [] => ret []
  | call :: calls' =>
      p <- async call;;
      ps <- map_async calls';;
      ret (p :: ps)
  end.

(** Every promise runs to its end, in order. *)
Fixpoint settle_all {World A} (ps : list (Async World A)) (s : State World)
  : list (Completion A) * State World :=
  match ps with
  | [] => ([], s)
  | p :: ps' =>
      let (c, s1) := p s in
      let (cs, s2) := settle_all ps' s1 in
      (c :: cs, s2)
  end.

(** The array of results, or the first rejection. *)
Fixpoint join_all {A} (cs : list (Completion A)) : Completion (list A) :=
  match cs with
  | [] => Return []
  | Return a :: cs' =>
      match join_all cs' with
      | Return l => Return (a :: l)
      | Throw e => Throw e
      end
  | Throw e :: _ => Throw e
  end.

Definition Promise_all {World A} (ps : list (Async World A)) : Async World (list A) :=
  fun s => let (cs, s') := settle_all ps s in (join_all cs, s').

(** ** Redlock.ts: the coordinator *)

(** [interface RedlockOptions]. *)
Record RedlockOptions : Type := mkRedlockOptions {
  option_retryCount : option Z;
  option_retryDelay : option Z
}.

(** The private fields of [class Redlock], and what it inherits from
    [EventEmitter] as far as the class depends on it: the number of
    listeners for ['error']. *)
Record Redlock (World : Type) : Type := mkRedlock {
  clients : list (RedisClient World);
  retryCount : Z;
  retryDelay : Z;
  quorum : Z;
  clockDriftFactor : Q;
  error_listeners : nat
}.

Arguments clients {World} _.
Arguments retryCount {World} _.
Arguments retryDelay {World} _.
Arguments quorum {World} _.
Arguments clockDriftFactor {World} _.
Arguments error_listeners {World} _.

(** [constructor(clients, options?)]. *)
Definition new_Redlock {World} (cs : list (RedisClient World)) (options : option RedlockOptions)
  : Redlock World :=
  {| clients := cs;
     retryCount := js_or (options ≫= option_retryCount) 3;
     retryDelay := js_or (options ≫= option_retryDelay) 200;
     quorum := Z.of_nat (length cs) / 2 + 1;
     clockDriftFactor := (1 # 100)%Q;
     error_listeners := 0 |}.

(** [this.on('error', listener)]. *)
Definition on_error {World} (this : Redlock World) : Redlock World :=
  {| clients := clients this;
     retryCount := retryCount this;
     retryDelay := retryDelay this;
     quorum := quorum this;
     clockDriftFactor := clockDriftFactor this;
     error_listeners := S (error_listeners this) |}.

(** [Number(res)] for a result that is a number or [null], itself possibly
    replaced by [null] in [executeOnAllClients]. *)
Definition Number (res : option (option Z)) : Z :=
  match res with
  | Some (Some n) => n
  | _ => 0
  end.

(** [client.set(key, value, options)] and [client.eval(script, keys, args)]
    as the coordinator issues them to the store at index [i]; each
    returns its promise. *)
Definition call_set {World} (i : nat) (client : RedisClient World)
  (key value : string) (options : SetOptions) : Async World (Promise World SetReply) :=
  record (CalledSet i key value options);;;
  request (client_set client key value options).

Definition call_eval {World} (i : nat) (client : RedisClient World)
  (script : Script) (keys : list string) (args : list Arg) : Async World (Promise World Z) :=
  record (CalledEval i script keys args);;;
  request (client_eval client script keys args).



(** The three errors the coordinator constructs. *)
Definition expired : JsError :=
  Error "Lock validity time expired before acquiring quorum.".

Definition exhausted : JsError :=
  Error "Failed to acquire lock after maximum retries.".

Definition not_extended : JsError :=
  Error "Failed to extend lock on a majority of instances.".

Section Coordinator.
Context {World : Type} `{Runtime World}.
Variable this : Redlock World.

Definition sleep (ms : Z) : Async World unit :=
  record (Slept ms);;;
  perform (fun w => (tt, setTimeout ms w)).

(** [this.emit('error', err)]: an [EventEmitter] without a listener for
    ['error'] throws [err]. *)
Definition emit_error (err : JsError) : Async World unit :=
  emit (error err);;;
  match error_listeners this with
  | O => throw err
  | S _ => ret tt
  end.

(** [fn] is an [async] function: [fn(client)] runs it up to its first
    [await], inside the [try]. *)
Definition executeOnAllClients {T}
  (fn : nat -> RedisClient World -> Async World (Promise World T))
  : Async World (list (option T)) :=
  promises <- map_async
                (imap (fun i client =>
                         p <- async (fn i client);;
                         ret (try_catch (r <- await p;; ret (Some r))
                                        (fun err => emit_error err;;; ret None)))
                      (clients this));;
  Promise_all promises.

Definition generateLockId : Async World string :=
  bytes <- perform (randomBytes 16);;
  ret (toString_hex bytes).

Definition lockInstances (resource lockId : string) (ttl : Z) : Async World Z :=
  lockPromises <- map_async
                    (imap (fun i client =>
                             p <- call_set i client resource lockId
                                           {| nx := None; px := Some ttl |};;
                             ret (try_catch
                                    (result <- await p;;
                                     ret (match result with OK => 1 | null => 0 end))
                                    (fun err => emit (lockError i err);;; ret 0)))
                          (clients this));;
  results <- Promise_all lockPromises;;
  let successfulLocks := fold_left (fun acc val => acc + val) results 0 in
  ret successfulLocks.

Definition unlockInstances (resource lockId : string) : Async World unit :=
  executeOnAllClients
    (fun i client =>
       p <- call_eval i client unlockScript [resource] [ArgStr lockId];;
       ret (try_catch
              (await p;;; ret tt)
              (fun err => emit (unlockError i err))));;;
  ret tt.

(** [drift] of [acquire]. *)
Definition drift (ttl : Z) : Z :=
  Qfloor (clockDriftFactor this * inject_Z ttl) + 2.

(** One turn of the [while] loop of [acquire], up to the end of its
    [if]: [Some lockId] is [return lockId], [None] falls through to
    [attempts++]. *)
Definition attempt (resource lockId : string) (ttl startTime attempts : Z)
  : Async World (option string) :=
  successfulLocks <- lockInstances resource lockId ttl;;
  if successfulLocks >=? quorum this then
    now <- perform Date_now;;
    let elapsedTime := now - startTime in
    let validityTime := ttl - elapsedTime - drift ttl in
    if validityTime >? 0 then
      emit (lockAcquired resource lockId validityTime);;;
      ret (Some lockId)
    else
      unlockInstances resource lockId;;;
      let err := expired in
      emit_error err;;;
      throw err
  else
    unlockInstances resource lockId;;;
    emit (attemptFailed resource lockId attempts);;;
    ret None.

(** [while (attempts < this.retryCount) { ... }] and what follows it.
    [None]: the fuel ran out before the loop ended. *)
Fixpoint acquire_loop (fuel : nat) (resource lockId : string) (ttl startTime attempts : Z)
  (s : State World) : option (Completion string * State World) :=
  match fuel with
  | O => None
  | S fuel' =>
      if attempts <? retryCount this then
        match attempt resource lockId ttl startTime attempts s with
        | (Return (Some result), s1) => Some (Return result, s1)
        | (Return None, s1) =>
            match sleep (retryDelay this) s1 with
            | (Return _, s2) =>
                acquire_loop fuel' resource lockId ttl startTime (attempts + 1) s2
            | (Throw e, s2) => Some (Throw e, s2)
            end
        | (Throw e, s1) => Some (Throw e, s1)
        end
      else
        let err := exhausted in
        Some ((emit_error err;;; throw err) s)
  end.

(** The two [const] of [acquire] before the loop. *)
Definition acquire_prologue : Async World (string * Z) :=
  lockId <- generateLockId;;
  startTime <- perform Date_now;;
  ret (lockId, startTime).

Definition acquire (fuel : nat) (resource : string) (ttl : Z) (s : State World)
  : option (Completion string * State World) :=
  match acquire_prologue s with
  | (Return (lockId, startTime), s0) =>
      let attempts := 0 in
      acquire_loop fuel resource lockId ttl startTime attempts s0
  | (Throw e, s0) => Some (Throw e, s0)
  end.

Definition release (resource lockId : string) : Async World unit :=
  try_catch
    (unlockInstances resource lockId;;;
     emit (lockReleased resource lockId))
    (fun err => emit_error err;;; throw err).

Definition extend (resource lockId : string) (ttl : Z) : Async World unit :=
  results <- executeOnAllClients
               (fun i client =>
                  p <- call_eval i client extendScript [resource]
                                 [ArgStr lockId; ArgNum ttl];;
                  ret (try_catch
                         (r <- await p;; ret (Some r))
                         (fun err => emit (extendError i err);;; ret None)));;
  let extensions :=
    Z.of_nat (length (List.filter (fun res => Number res =? 1) results)) in
  if extensions >=? quorum this then
    emit (lockExtended resource lockId ttl);;;
    ret tt
  else
    let err := not_extended in
    emit_error err;;;
    throw err.

End Coordinator.

(** ** What the stores answered

    The replies of the stores to one fan-out, in array order, and the
    entries the fan-out leaves in the log.  These are the terms in which
    the properties below speak of a pattern of per-store outcomes. *)

Fixpoint fanout {World R} (step : RedisClient World -> World -> R * World)
  (cs : list (RedisClient World)) (w : World) : list R * World :=
  match cs with
  | [] => ([], w)
  | c :: cs' =>
      let (r, w1) := step c w in
      let (rs, w2) := fanout step cs' w1 in
      (r :: rs, w2)
  end.

Definition set_step {World} (resource lockId : string) (ttl : Z) (c : RedisClient World)
  : World -> Completion SetReply * World :=
  client_set c resource lockId {| nx := None; px := Some ttl |}.

Definition unlock_step {World} (resource lockId : string) (c : RedisClient World)
  : World -> Completion Z * World :=
  client_eval c unlockScript [resource] [ArgStr lockId].

Definition extend_step {World} (resource lockId : string) (ttl : Z) (c : RedisClient World)
  : World -> Completion Z * World :=
  client_eval c extendScript [resource] [ArgStr lockId; ArgNum ttl].

(** The event of the store at index [i], if its call was rejected. *)
Definition rejected {A} (ev : nat -> JsError -> Event) (i : nat) (r : Completion A)
  : list Entry :=
  match r with
  | Throw e => [Emitted (ev i e)]
  | Return _ => []
  end.

Fixpoint rejections {A} (ev : nat -> JsError -> Event) (i : nat) (rs : list (Completion A))
  : list Entry :=
  match rs with
  | [] => []
  | r :: rs' => rejected ev i r ++ rejections ev (S i) rs'
  end.

(** The log of a fan-out: the calls, then the events of the stores that
    threw. *)
Definition fan_log {A} (call : nat -> Entry) (ev : nat -> JsError -> Event)
  (rs : list (Completion A)) : list Entry :=
  map call (seq 0 (length rs)) ++ rejections ev 0 rs.

Definition lock_log (resource lockId : string) (ttl : Z) (rs : list (Completion SetReply))
  : list Entry :=
  fan_log (fun i => CalledSet i resource lockId {| nx := None; px := Some ttl |})
          lockError rs.

Definition unlock_log (resource lockId : string) (rs : list (Completion Z)) : list Entry :=
  fan_log (fun i => CalledEval i unlockScript [resource] [ArgStr lockId]) unlockError rs.

Definition extend_log (resource lockId : string) (ttl : Z) (rs : list (Completion Z))
  : list Entry :=
  fan_log (fun i => CalledEval i extendScript [resource] [ArgStr lockId; ArgNum ttl])
          extendError rs.

(** The stores that confirmed the creation, and those that answered 1. *)
Definition confirmed (r : Completion SetReply) : bool :=
  match r with
  | Return OK => true
  | _ => false
  end.

Definition answered_1 (r : Completion Z) : bool :=
  match r with
  | Return n => n =? 1
  | Throw _ => false
  end.

Definition votes (rs : list (Completion SetReply)) : Z :=
  Z.of_nat (length (List.filter confirmed rs)).

Definition renewals (rs : list (Completion Z)) : Z :=
  Z.of_nat (length (List.filter answered_1 rs)).


Definition is_call (e : Entry) : bool :=
  match e with
  | CalledSet _ _ _ _ | CalledEval _ _ _ _ => true
  | _ => false
  end.

Definition store_calls (l : list Entry) : list Entry :=
  List.filter is_call l.

(** The tokens of the conditional-sets sent to the store at index [i]:
    one per attempt. *)
Definition set_tokens (i : nat) (l : list Entry) : list string :=
  omap (fun e => match e with
                 | CalledSet j _ token _ => if bool_decide (j = i) then Some token else None
                 | _ => None
                 end) l.

(** The calls to the stores made on behalf of one token: an entry of the
    log that is a call is the conditional-set of [resource] under
    [lockId], or the check-then-delete of [resource] for [lockId]. *)
Definition carries_token (resource lockId : string) (e : Entry) : Prop :=
  match e with
  | CalledSet _ key token _ => key = resource /\ token = lockId
  | CalledEval _ script keys args =>
      script = unlockScript /\ keys = [resource] /\ args = [ArgStr lockId]
  | _ => True
  end.

(** From one turn of the loop of [acquire] to the next. *)
Inductive next_attempt {World} `{Runtime World} (this : Redlock World)
  (resource lockId : string) (ttl startTime : Z)
  : Z * State World -> Z * State World -> Prop :=
| next_attempt_intro attempts s s1 s2 :
    attempts < retryCount this ->
    attempt this resource lockId ttl startTime attempts s = (Return None, s1) ->
    sleep (retryDelay this) s1 = (Return tt, s2) ->
    next_attempt this resource lockId ttl startTime (attempts, s) (attempts + 1, s2).

(** The drift budget in the words of the specification:
    ceil(clockDriftFactor x TTL) + fixed safety margin. *)
Definition drift_budget_spec (factor : Q) (margin : Z) (ttl : Z) : Z :=
  Qceiling (factor * inject_Z ttl) + margin.

(** ** The drift on IEEE-754 binary64

    [Math.floor(this.clockDriftFactor * ttl) + 2] as JavaScript computes
    it, on doubles: precision 53, maximal exponent 1024, round to nearest
    even. *)

Module Binary64.

(** The double nearest to 0.01, 0x1.47ae147ae147bp-7. *)
Definition clockDriftFactor : SpecFloat.spec_float :=
  SpecFloat.S754_finite false 5764607523034235 (-59).

Definition of_Z (n : Z) : SpecFloat.spec_float :=
  SpecFloat.binary_normalize 53 1024 n 0 false.

Definition mul : SpecFloat.spec_float -> SpecFloat.spec_float -> SpecFloat.spec_float :=
  SpecFloat.SFmul 53 1024.

(** [Math.floor] of a finite double; [None] for NaN and the infinities. *)
Definition floor (x : SpecFloat.spec_float) : option Z :=
  match x with
  | SpecFloat.S754_zero _ => Some 0
  | SpecFloat.S754_finite sign m e =>
      let v := if sign then Z.neg m else Z.pos m in
      Some (if 0 <=? e then v * 2 ^ e else v / 2 ^ (- e))
  | _ => None
  end.

Definition drift (ttl : Z) : option Z :=
  match floor (mul clockDriftFactor (of_Z ttl)) with
  | Some d => Some (d + 2)
  | None => None
  end.

(** Does [drift] give floor(ttl / 100) + 2 on the [n] integers from
    [ttl] on? *)
Fixpoint agrees_from (ttl : Z) (n : nat) : bool :=
  match n with
  | O => true
  | S n' => bool_decide (drift ttl = Some (ttl / 100 + 2)) && agrees_from (ttl + 1) n'
  end.

End Binary64.

(** ** The Redis servers behind the adapters

    The servers and the client libraries (ioredis, node-redis) are not part
    of the repository.  They are modelled by the documented behaviour of
    the three commands the adapters send: [SET key value [NX] [PX ms]],
    and [EVAL] of the two scripts above. *)

Record Item : Type := mkItem {
  value : string;
  expiresAt : option Z
}.

Record Server : Type := mkServer {
  data : gmap string Item;
  reachable : bool;
  latency : Z
}.

Record Cluster : Type := mkCluster {
  servers : list Server;
  clock : Z;
  entropy : N
}.

Inductive SetFlag : Type :=
| NX
| PX (milliseconds : Z).

Definition has_NX (flags : list SetFlag) : bool :=
  existsb (fun f => match f with NX => true | PX _ => false end) flags.

Definition expiry_of (now : Z) (flags : list SetFlag) : option Z :=
  head (omap (fun f => match f with PX ms => Some (now + ms) | NX => None end) flags).

Definition live (now : Z) (it : Item) : bool :=
  match expiresAt it with
  | Some t => now <? t
  | None => true
  end.

Definition GET (now : Z) (key : string) (db : gmap string Item) : option string :=
  match db !! key with
  | Some it => if live now it then Some (value it) else None
  | None => None
  end.

Definition SET (now : Z) (key val : string) (flags : list SetFlag) (db : gmap string Item)
  : SetReply * gmap string Item :=
  if has_NX flags && bool_decide (is_Some (GET now key db)) then (null, db)
  else (OK, <[key := {| value := val; expiresAt := expiry_of now flags |}]> db).

Definition EVAL (now : Z) (script : Script) (keys : list string) (args : list Arg)
  (db : gmap string Item) : Z * gmap string Item :=
  match keys, args with
  | key :: _, ArgStr expected :: rest =>
      if bool_decide (GET now key db = Some expected) then
        match script, rest with
        | unlockScript, _ => (1, delete key db)
        | extendScript, ArgNum ms :: _ =>
            (1, <[key := {| value := expected; expiresAt := Some (now + ms) |}]> db)
        | extendScript, _ => (0, db)
        end
      else (0, db)
  | _, _ => (0, db)
  end.

(** A command sent to the server at index [i]: the reply arrives after the
    server's latency; an unreachable server rejects the call. *)
Definition command {A} (i : nat) (run : Z -> gmap string Item -> A * gmap string Item)
  (w : Cluster) : Completion A * Cluster :=
  match servers w !! i with
  | Some srv =>
      let now := clock w + latency srv in
      if reachable srv then
        let (a, db) := run now (data srv) in
        (Return a,
         {| servers := <[i := {| data := db; reachable := true; latency := latency srv |}]>
                         (servers w);
            clock := now; entropy := entropy w |})
      else
        (Throw (Error "Connection is closed."),
         {| servers := servers w; clock := now; entropy := entropy w |})
  | None => (Throw (Error "Connection is closed."), w)
  end.

Definition byte_of_N (n : N) : byte :=
  match Byte.of_N (n mod 256) with
  | Some b => b
  | None => x00
  end.

#[export] Instance Cluster_Runtime : Runtime Cluster :=
  {| randomBytes n w :=
       (map (fun k => byte_of_N (entropy w / 256 ^ N.of_nat k)) (seq 0 n),
        {| servers := servers w; clock := clock w; entropy := N.succ (entropy w) |});
     Date_now w := (clock w, w);
     setTimeout ms w :=
       {| servers := servers w; clock := clock w + Z.max ms 1; entropy := entropy w |} |}.

(** ** The adapters *)

(** [if (options?.nx)]: an absent flag is falsy. *)
Definition truthy_flag (x : option bool) : bool :=
  match x with
  | Some b => b
  | None => false
  end.

(** adapters/IORedisAdapter.ts, [set]: the arguments that follow
    [key, value]; [if (options?.px)] is falsy on [undefined] and on 0. *)
Definition IORedisAdapter_args (options : SetOptions) : list SetFlag :=
  let args := [] in
  let args := if truthy_flag (nx options) then args ++ [NX] else args in
  let args :=
    match px options with
    | Some ms => if ms =? 0 then args else args ++ [PX ms]
    | None => args
    end in
  args.

(** adapters/IORedisAdapter.ts, over the server at index [i]. *)
Definition IORedisAdapter (i : nat) : RedisClient Cluster :=
  {| client_set key val options :=
       command i (fun now => SET now key val (IORedisAdapter_args options));
     client_eval script keys args :=
       command i (fun now => EVAL now script keys args) |}.

(** adapters/NodeRedisAdapter.ts, [set]: [setOptions]. *)
Definition NodeRedisAdapter_setOptions (options : SetOptions) : list SetFlag :=
  let setOptions := [NX] in
  let setOptions :=
    match px options with
    | Some ms => if ms =? 0 then setOptions else setOptions ++ [PX ms]
    | None => setOptions
    end in
  setOptions.

(** adapters/NodeRedisAdapter.ts. *)
Definition NodeRedisAdapter (i : nat) : RedisClient Cluster :=
  {| client_set key val options :=
       command i (fun now => SET now key val (NodeRedisAdapter_setOptions options));
     client_eval script keys args :=
       command i (fun now => EVAL now script keys args) |}.

(** The revision of the ioredis adapter that stands before [class Redlock]
    in one file: [set] sends ['PX', options.px.toString(), 'NX'] always;
    [options.px] is required. *)
Definition IORedisAdapter_always_NX (i : nat) : RedisClient Cluster :=
  {| client_set key val options :=
       match px options with
       | Some ms => command i (fun now => SET now key val [PX ms; NX])
       | None =>
           fun w =>
             (Throw (Error "Cannot read properties of undefined (reading 'toString')"), w)
       end;
     client_eval script keys args :=
       command i (fun now => EVAL now script keys args) |}.

(** The revision of the node-redis adapter whose [NX] follows
    [options?.nx]. *)
Definition NodeRedisAdapter_optional_NX_setOptions (options : SetOptions) : list SetFlag :=
  let setOptions := [] in
  let setOptions := if truthy_flag (nx options) then setOptions ++ [NX] else setOptions in
  let setOptions :=
    match px options with
    | Some ms => if ms =? 0 then setOptions else setOptions ++ [PX ms]
    | None => setOptions
    end in
  setOptions.

Definition NodeRedisAdapter_optional_NX (i : nat) : RedisClient Cluster :=
  {| client_set key val options :=
       command i (fun now => SET now key val (NodeRedisAdapter_optional_NX_setOptions options));
     client_eval script keys args :=
       command i (fun now => EVAL now script keys args) |}.

(** ** Sample deployments *)

Definition idle_server : Server :=
  {| data := ∅; reachable := true; latency := 1 |}.

Definition down_server : Server :=
  {| data := ∅; reachable := false; latency := 1 |}.

(** A server that holds [key] under [val] until [t]. *)
Definition held_server (key val : string) (t : Z) : Server :=
  {| data := {[ key := {| value := val; expiresAt := Some t |} ]};
     reachable := true; latency := 1 |}.

Definition cluster_of (srvs : list Server) : State Cluster :=
  {| world := {| servers := srvs; clock := 0; entropy := 1 |}; log := [] |}.

(** Three node-redis stores, [retryCount] 3, [retryDelay] 100 ms: the
    coordinator of the unit tests. *)
Definition node_redlock : Redlock Cluster :=
  new_Redlock [NodeRedisAdapter 0; NodeRedisAdapter 1; NodeRedisAdapter 2]
    (Some {| option_retryCount := Some 3; option_retryDelay := Some 100 |}).

(** Three ioredis stores and the default options: the coordinator of the
    integration tests. *)
Definition ioredis_redlock : Redlock Cluster :=
  new_Redlock [IORedisAdapter 0; IORedisAdapter 1; IORedisAdapter 2] None.

(** The key is held on every store under another token until [t]. *)
Definition held_until (t : Z) : State Cluster :=
  cluster_of [held_server "r" "A" t; held_server "r" "A" t; held_server "r" "A" t].

(** The entry of [key] on the server at index [i], if it is live. *)
Definition stored (s : State Cluster) (i : nat) (key : string) : option string :=
  match servers (world s) !! i with
  | Some srv => GET (clock (world s)) key (data srv)
  | None => None
  end.

(** The specification's reading of a fresh token on every retry: the
    conditional-sets that one store receives from one acquire call carry
    tokens that differ from attempt to attempt. *)
Definition fresh_token_per_attempt (l : list Entry) : Prop :=
  NoDup (set_tokens 0 l).


(** ** Further observations of a call *)

(** The attempt numbers of the [attemptFailed] events, and the delays of
    the timers, in the order of the log. *)
Definition failed_attempts (l : list Entry) : list Z :=
  omap (fun e => match e with
                 | Emitted (attemptFailed _ _ attempts) => Some attempts
                 | _ => None
                 end) l.

Definition sleeps (l : list Entry) : list Z :=
  omap (fun e => match e with
                 | Slept ms => Some ms
                 | _ => None
                 end) l.

(** Reading a hexadecimal string back into bytes: the inverse of
    [toString_hex], by which a token determines the bytes drawn. *)
Definition unhex_digit (c : ascii) : option N :=
  match String.index 0 (String c EmptyString) "0123456789abcdef"%string with
  | Some n => Some (N.of_nat n)
  | None => None
  end.

Definition byte_of_hex (c1 c2 : ascii) : option byte :=
  match unhex_digit c1, unhex_digit c2 with
  | Some h, Some l => Byte.of_N (16 * h + l)
  | _, _ => None
  end.

Fixpoint from_hex (s : string) : option (list byte) :=
  match s with
  | EmptyString => Some []
  | String c1 (String c2 s') =>
      match byte_of_hex c1 c2, from_hex s' with
      | Some b, Some bs => Some (b :: bs)
      | _, _ => None
      end
  | String _ EmptyString => None
  end.

(** ** test/__mocks__/MockRedisClient.ts

    The store of the unit tests: a [Map] from keys to
    [{ value, expiresAt }] per client, read and written against
    [Date.now()]. *)

(** The numbers [expiresAt] can hold: a time, [Infinity] (no [px]), or
    [NaN] ([currentTime + Number(args[1])] when [args[1]] is no number). *)
Inductive JsNumber : Type :=
| Finite (z : Z)
| Infinity
| NaN.

Record MockEntry : Type := mkMockEntry {
  entry_value : string;
  entry_expiresAt : JsNumber
}.

(** [expiresAt > currentTime]. *)
Definition expires_after (expiresAt : JsNumber) (currentTime : Z) : bool :=
  match expiresAt with
  | Finite t => t >? currentTime
  | Infinity => true
  | NaN => false
  end.

(** [currentTime + ttl]. *)
Definition time_plus (currentTime : Z) (ttl : JsNumber) : JsNumber :=
  match ttl with
  | Finite ms => Finite (currentTime + ms)
  | Infinity => Infinity
  | NaN => NaN
  end.

(** The clients of a test, the clock that [Date.now()] reads, and the
    source of [randomBytes]. *)
Record TestWorld : Type := mkTestWorld {
  mock_data : list (gmap string MockEntry);
  mock_clock : Z;
  mock_entropy : N
}.

#[export] Instance TestWorld_Runtime : Runtime TestWorld :=
  {| randomBytes n w :=
       (map (fun k => byte_of_N (mock_entropy w / 256 ^ N.of_nat k)) (seq 0 n),
        {| mock_data := mock_data w; mock_clock := mock_clock w;
           mock_entropy := N.succ (mock_entropy w) |});
     Date_now w := (mock_clock w, w);
     setTimeout ms w :=
       {| mock_data := mock_data w; mock_clock := mock_clock w + Z.max ms 1;
          mock_entropy := mock_entropy w |} |}.

Section Mock.

(** [Number(s)] on a string: a builtin of JavaScript, taken as given. *)
Variable Number_of_string : string -> JsNumber.

(** [MockRedisClient.set], on the map of the client. *)
Definition Mock_set (currentTime : Z) (key val : string) (options : SetOptions)
  (data : gmap string MockEntry) : SetReply * gmap string MockEntry :=
  let existing := data !! key in
  if match existing with
     | Some e => expires_after (entry_expiresAt e) currentTime
     | None => false
     end
  then (null, data)
  else
    let expiresAt :=
      match px options with
      | Some ms => if ms =? 0 then Infinity else Finite (currentTime + ms)
      | None => Infinity
      end in
    (OK, <[key := {| entry_value := val; entry_expiresAt := expiresAt |}]> data).

(** [MockRedisClient.eval]: both scripts of the coordinator contain
    [redis.call(get]; [unlockScript] contains [redis.call(del],
    [extendScript] contains [redis.call(pexpire]. *)
Definition Mock_eval (currentTime : Z) (script : Script) (keys : list string)
  (args : list Arg) (data : gmap string MockEntry) : Z * gmap string MockEntry :=
  let lockId := args !! 0%nat in
  let ttl :=
    match args !! 1%nat with
    | Some (ArgNum n) => Finite n
    | Some (ArgStr str) => Number_of_string str
    | None => NaN
    end in
  let entry :=
    match keys !! 0%nat with
    | Some key => data !! key
    | None => None
    end in
  match keys !! 0%nat, entry with
  | Some key, Some e =>
      if match lockId with
         | Some (ArgStr l) => bool_decide (entry_value e = l)
         | _ => false
         end
         && expires_after (entry_expiresAt e) currentTime
      then
        match script with
        | unlockScript => (1, delete key data)
        | extendScript =>
            (1, <[key := {| entry_value := entry_value e;
                            entry_expiresAt := time_plus currentTime ttl |}]> data)
        end
      else (0, data)
  | _, _ => (0, data)
  end.

(** The client whose map is the one at index [i] of the world.  A call
    settles at once; the clock does not move. *)
Definition on_mock {A} (i : nat)
  (run : Z -> gmap string MockEntry -> A * gmap string MockEntry)
  (w : TestWorld) : Completion A * TestWorld :=
  match mock_data w !! i with
  | Some data =>
      let (a, data') := run (mock_clock w) data in
      (Return a,
       {| mock_data := <[i := data']> (mock_data w); mock_clock := mock_clock w;
          mock_entropy := mock_entropy w |})
  | None => (Throw (Error "no such client"), w)
  end.

Definition MockRedisClient (i : nat) : RedisClient TestWorld :=
  {| client_set key val options :=
       on_mock i (fun currentTime => Mock_set currentTime key val options);
     client_eval script keys args :=
       on_mock i (fun currentTime => Mock_eval currentTime script keys args) |}.

(** [clients = [new MockRedisClient(), ...]], one per map of the world. *)
Definition mock_clients (w : TestWorld) : list (RedisClient TestWorld) :=
  MockRedisClient <$> seq 0 (length (mock_data w)).

(** Is [key] held on a mock at [currentTime], and under [val]? *)
Definition mock_holds (currentTime : Z) (key : string) (data : gmap string MockEntry)
  : option string :=
  match data !! key with
  | Some e => if expires_after (entry_expiresAt e) currentTime
              then Some (entry_value e) else None
  | None => None
  end.

End Mock.

(** Does a mock hold the resource, under a token other than [token], with
    an expiry later than [T]? *)
Definition held_by_other (T : Z) (resource token : string) (d : gmap string MockEntry) : bool :=
  match d !! resource with
  | Some e => expires_after (entry_expiresAt e) T && negb (String.eqb (entry_value e) token)
  | None => false
  end.

(** ** Sample tests on the mocks *)

(** A stand-in for [Number] on strings; no theorem depends on it. *)
Definition Number_sample : string -> JsNumber := fun _ => NaN.

(** Three fresh mocks; and three mocks of which two hold the resource
    under another token. *)
Definition three_mocks : TestWorld :=
  {| mock_data := [∅; ∅; ∅]; mock_clock := 0; mock_entropy := 1 |}.

Definition two_mocks_held : TestWorld :=
  {| mock_data :=
       [ {[ "r"%string := {| entry_value := "A"; entry_expiresAt := Infinity |} ]};
         {[ "r"%string := {| entry_value := "A"; entry_expiresAt := Finite 5000 |} ]};
         ∅ ];
     mock_clock := 0; mock_entropy := 1 |}.

(** The coordinator of the unit tests: [retryCount] 3, [retryDelay] 100. *)
Definition test_redlock (w : TestWorld) : Redlock TestWorld :=
  new_Redlock (mock_clients Number_sample w)
    (Some {| option_retryCount := Some 3; option_retryDelay := Some 100 |}).

(** * Properties *)

(** ** The hexadecimal rendering *)

Lemma byte_of_hex_of_byte (b : byte) :
  byte_of_hex (hex_digit (Byte.to_N b / 16)) (hex_digit (Byte.to_N b mod 16)) = Some b.
Proof. destruct b; reflexivity. Qed.

Lemma hex_digits_of_byte (b : byte) :
  is_Some (unhex_digit (hex_digit (Byte.to_N b / 16))) /\
  is_Some (unhex_digit (hex_digit (Byte.to_N b mod 16))).
Proof.
  pose proof (byte_of_hex_of_byte b) as Hb. unfold byte_of_hex in Hb.
  destruct (unhex_digit _); [|done]. destruct (unhex_digit _); [|done].
  split; by eexists.
Qed.

Lemma from_hex_toString_hex (bs : list byte) : from_hex (toString_hex bs) = Some bs.
Proof.
  induction bs as [|b bs IH]; [done|].
  change (toString_hex (b :: bs))
    with (String (hex_digit (Byte.to_N b / 16))
            (String (hex_digit (Byte.to_N b mod 16)) (toString_hex bs))).
  cbn [from_hex]. by rewrite byte_of_hex_of_byte, IH.
Qed.

Lemma toString_hex_shape (bs : list byte) :
  String.length (toString_hex bs) = (2 * length bs)%nat /\
  Forall (fun c => is_Some (unhex_digit c)) (list_ascii_of_string (toString_hex bs)).
Proof.
  induction bs as [|b bs [IHlen IHhex]]; [by split|].
  change (toString_hex (b :: bs))
    with (String (hex_digit (Byte.to_N b / 16))
            (String (hex_digit (Byte.to_N b mod 16)) (toString_hex bs))).
  split.
  - cbn [String.length]. rewrite IHlen. simpl. lia.
  - cbn [list_ascii_of_string]. destruct (hex_digits_of_byte b). by repeat constructor.
Qed.

Lemma toString_hex_inj (bs1 bs2 : list byte) :
  toString_hex bs1 = toString_hex bs2 -> bs1 = bs2.
Proof.
  intros Heq. apply (f_equal from_hex) in Heq.
  rewrite !from_hex_toString_hex in Heq. by injection Heq.
Qed.

(** ** Fan-out *)

Lemma fanout_length {World R} (step : RedisClient World -> World -> R * World)
  (cs : list (RedisClient World)) (w : World) :
  length (fanout step cs w).1 = length cs.
Proof.
  revert w. induction cs as [|c cs IH]; intros w; simpl; [done|].
  destruct (step c w) as [r w1]. specialize (IH w1).
  destruct (fanout step cs w1) as [rs w2]. simpl in *. by rewrite IH.
Qed.

(** A fan-out whose bodies call their store, wait for the reply and
    handle a rejection themselves. *)
Section FanoutLemmas.
Context {World R A : Type}.
Variable step : RedisClient World -> World -> Completion R * World.
Variable out : Completion R -> A.
Variable call : nat -> Entry.
Variable ev : nat -> JsError -> Event.
Variable body : nat -> RedisClient World -> Async World (Promise World A).
Variable rest : nat -> Completion R -> Promise World A.

Hypothesis body_spec : forall i c s,
  body i c s =
  (Return (rest i (step c (world s)).1),
   mkState (step c (world s)).2 (log s ++ [call i])).

Hypothesis rest_spec : forall i r s,
  rest i r s = (Return (out r), mkState (world s) (log s ++ rejected ev i r)).

Lemma map_async_fanout (cs : list (RedisClient World)) :
  forall (k : nat) (s : State World),
    map_async (imap (fun i => body (k + i)%nat) cs) s =
    (Return (imap (fun i => rest (k + i)%nat) (fanout step cs (world s)).1),
     mkState (fanout step cs (world s)).2
             (log s ++ map call (seq k (length cs)))).
Proof.
  induction cs as [|c cs IH]; intros k s; simpl.
  - rewrite app_nil_r. by destruct s.
  - unfold bind at 1, async. rewrite Nat.add_0_r, body_spec.
    destruct (step c (world s)) as [r w1] eqn:Hstep; simpl.
    rewrite (imap_ext _ (fun i => body (S k + i)%nat)); last first.
    { intros i x _. simpl. f_equal. lia. }
    unfold bind at 1. rewrite IH; simpl.
    destruct (fanout step cs w1) as [rs w2]; simpl.
    unfold ret. rewrite <- app_assoc, Nat.add_0_r. simpl. do 3 f_equal.
    apply imap_ext. intros i x _. simpl. f_equal. lia.
Qed.

Lemma settle_all_rests (rs : list (Completion R)) :
  forall (k : nat) (s : State World),
    settle_all (imap (fun i => rest (k + i)%nat) rs) s =
    (map (fun r => Return (out r)) rs,
     mkState (world s) (log s ++ rejections ev k rs)).
Proof.
  induction rs as [|r rs IH]; intros k s; simpl.
  - rewrite app_nil_r. by destruct s.
  - rewrite Nat.add_0_r, rest_spec.
    rewrite (imap_ext _ (fun i => rest (S k + i)%nat)); last first.
    { intros i x _. simpl. f_equal. lia. }
    rewrite IH; simpl. by rewrite <- app_assoc.
Qed.

Lemma join_all_returns (rs : list (Completion R)) :
  join_all (map (fun r => Return (out r)) rs) = Return (map out rs).
Proof.
  induction rs as [|r rs IH]; simpl; [done|]. by rewrite IH.
Qed.

Lemma Promise_all_fanout (cs : list (RedisClient World)) (s : State World) :
  (promises <- map_async (imap body cs);; Promise_all promises) s =
  (Return (map out (fanout step cs (world s)).1),
   mkState (fanout step cs (world s)).2
           (log s ++ fan_log call ev (fanout step cs (world s)).1)).
Proof.
  unfold bind, Promise_all.
  rewrite (imap_ext _ (fun i => body (0 + i)%nat)) by done.
  rewrite map_async_fanout, settle_all_rests, join_all_returns. simpl.
  unfold fan_log. by rewrite fanout_length, <- app_assoc.
Qed.

End FanoutLemmas.

Lemma fold_left_votes (rs : list (Completion SetReply)) (acc : Z) :
  fold_left (fun acc val => acc + val)
            (map (fun r => match r with Return OK => 1 | _ => 0 end) rs) acc
  = acc + votes rs.
Proof.
  revert acc. unfold votes.
  induction rs as [|r rs IH]; intros acc; simpl; [lia|].
  rewrite IH. destruct r as [[]|]; simpl; lia.
Qed.

(** ** The log of a fan-out *)

Section FanLog.
Context {A : Type}.
Variable call : nat -> Entry.
Variable ev : nat -> JsError -> Event.

Hypothesis call_is_call : forall i, is_call (call i) = true.
Hypothesis ev_inj : forall i e j e', ev i e = ev j e' -> i = j /\ e = e'.

Lemma store_calls_app (l1 l2 : list Entry) :
  store_calls (l1 ++ l2) = store_calls l1 ++ store_calls l2.
Proof. apply List.filter_app. Qed.

Lemma store_calls_rejections (rs : list (Completion A)) (k : nat) :
  store_calls (rejections ev k rs) = [].
Proof.
  revert k. induction rs as [|r rs IH]; intros k; simpl; [done|].
  rewrite store_calls_app, IH. by destruct r.
Qed.

Lemma store_calls_calls (l : list nat) : store_calls (map call l) = map call l.
Proof.
  induction l as [|i l IH]; simpl; [done|].
  rewrite call_is_call. f_equal. exact IH.
Qed.

Lemma fan_log_calls (rs : list (Completion A)) :
  store_calls (fan_log call ev rs) = map call (seq 0 (length rs)).
Proof.
  unfold fan_log.
  by rewrite store_calls_app, store_calls_calls, store_calls_rejections, app_nil_r.
Qed.

Lemma rejections_elem_of (rs : list (Completion A)) :
  forall k x,
    x ∈ rejections ev k rs <->
    exists j e, x = Emitted (ev (k + j)%nat e) /\ rs !! j = Some (Throw e).
Proof.
  induction rs as [|r rs IH]; intros k x; simpl.
  - split; [by intros ?%elem_of_nil|]. by intros (j & e & _ & ?).
  - rewrite elem_of_app, IH. split.
    + intros [Hr | (j & e & -> & Hj)].
      * destruct r as [a|e0]; simpl in Hr; [by apply elem_of_nil in Hr|].
        apply list_elem_of_singleton in Hr. exists 0%nat, e0.
        by rewrite Nat.add_0_r.
      * exists (S j), e. split; [|done]. do 2 f_equal. lia.
    + intros ([|j] & e & -> & Hj); simpl in Hj.
      * injection Hj as ->. left. simpl. rewrite Nat.add_0_r. apply list_elem_of_here.
      * right. exists j, e. split; [|done]. do 2 f_equal. lia.
Qed.

Lemma fan_log_rejections (rs : list (Completion A)) (i : nat) (e : JsError) :
  Emitted (ev i e) ∈ fan_log call ev rs <-> rs !! i = Some (Throw e).
Proof.
  unfold fan_log. rewrite elem_of_app, rejections_elem_of. split.
  - intros [Hc | (j & e' & Heq & Hj)].
    + apply list_elem_of_fmap in Hc as (j & Hc & _).
      pose proof (call_is_call j) as Hj. rewrite <- Hc in Hj. discriminate.
    + injection Heq as Heq. apply ev_inj in Heq as [-> ->]. exact Hj.
  - intros Hi. right. by exists i, e.
Qed.

Lemma fan_log_entries (rs : list (Completion A)) (x : Entry) :
  x ∈ fan_log call ev rs ->
  (exists i, x = call i) \/ (exists i e, x = Emitted (ev i e)).
Proof.
  unfold fan_log. rewrite elem_of_app, rejections_elem_of.
  intros [Hc | (j & e & -> & _)]; [|eauto].
  apply list_elem_of_fmap in Hc as (j & -> & _). eauto.
Qed.

End FanLog.

Lemma fan_log_returned {A B} (call : nat -> Entry) (ev : nat -> JsError -> Event)
  (f : B -> A) (xs : list B) :
  fan_log call ev (map (fun x => Return (f x)) xs) = map call (seq 0 (length xs)).
Proof.
  unfold fan_log. rewrite length_map.
  assert (Hnone : forall k, rejections ev k (map (fun x => Return (f x)) xs) = []).
  { induction xs as [|x xs IH]; intros k; simpl; [done|]. apply IH. }
  by rewrite Hnone, app_nil_r.
Qed.

Lemma lock_log_calls (resource lockId : string) (ttl : Z) (rs : list (Completion SetReply)) :
  store_calls (lock_log resource lockId ttl rs) =
  map (fun i => CalledSet i resource lockId {| nx := None; px := Some ttl |})
      (seq 0 (length rs)).
Proof. by apply fan_log_calls. Qed.

Lemma unlock_log_calls (resource lockId : string) (rs : list (Completion Z)) :
  store_calls (unlock_log resource lockId rs) =
  map (fun i => CalledEval i unlockScript [resource] [ArgStr lockId]) (seq 0 (length rs)).
Proof. by apply fan_log_calls. Qed.

Lemma extend_log_calls (resource lockId : string) (ttl : Z) (rs : list (Completion Z)) :
  store_calls (extend_log resource lockId ttl rs) =
  map (fun i => CalledEval i extendScript [resource] [ArgStr lockId; ArgNum ttl])
      (seq 0 (length rs)).
Proof. by apply fan_log_calls. Qed.


Lemma unlock_log_rejections (resource lockId : string)
  (rs : list (Completion Z)) (i : nat) (e : JsError) :
  Emitted (unlockError i e) ∈ unlock_log resource lockId rs <->
  rs !! i = Some (Throw e).
Proof. apply fan_log_rejections; [done|]. by intros ???? [= -> ->]. Qed.

(** A fan-out logs calls and the per-store error of its own kind, nothing
    else. *)
Lemma lock_log_entries (resource lockId : string) (ttl : Z)
  (rs : list (Completion SetReply)) (x : Entry) :
  x ∈ lock_log resource lockId ttl rs ->
  (exists i, x = CalledSet i resource lockId {| nx := None; px := Some ttl |}) \/
  (exists i e, x = Emitted (lockError i e)).
Proof. apply fan_log_entries. Qed.

Lemma unlock_log_entries (resource lockId : string) (rs : list (Completion Z))
  (x : Entry) :
  x ∈ unlock_log resource lockId rs ->
  (exists i, x = CalledEval i unlockScript [resource] [ArgStr lockId]) \/
  (exists i e, x = Emitted (unlockError i e)).
Proof. apply fan_log_entries. Qed.

Lemma extend_log_entries (resource lockId : string) (ttl : Z) (rs : list (Completion Z))
  (x : Entry) :
  x ∈ extend_log resource lockId ttl rs ->
  (exists i, x = CalledEval i extendScript [resource] [ArgStr lockId; ArgNum ttl]) \/
  (exists i e, x = Emitted (extendError i e)).
Proof. apply fan_log_entries. Qed.


(** ** The three fan-outs of the coordinator *)

Lemma bind_assoc {World A B C} (m : Async World A) (k : A -> Async World B)
  (k' : B -> Async World C) (s : State World) :
  bind (bind m k) k' s = bind m (fun a => bind (k a) k') s.
Proof. unfold bind. by destruct (m s) as [[a|e] s1]. Qed.

Section CoordinatorLemmas.
Context {World : Type} `{Runtime World}.
Variable this : Redlock World.

(** Where the code throws the error it has just emitted, the outcome is
    the same with and without a listener for ['error']. *)
Lemma emit_error_then_throw {A} (err : JsError) (s : State World) :
  (emit_error this err;;; @throw World A err) s =
  (Throw err, mkState (world s) (log s ++ [Emitted (error err)])).
Proof.
  cbv [emit_error bind emit record throw ret]. simpl.
  by destruct (error_listeners this).
Qed.

Lemma lockInstances_run (resource lockId : string) (ttl : Z) (s : State World) :
  lockInstances this resource lockId ttl s =
  (Return (votes (fanout (set_step resource lockId ttl) (clients this) (world s)).1),
   mkState (fanout (set_step resource lockId ttl) (clients this) (world s)).2
           (log s ++ lock_log resource lockId ttl
                       (fanout (set_step resource lockId ttl) (clients this) (world s)).1)).
Proof.
  unfold lockInstances. rewrite <- bind_assoc. unfold bind at 1.
  erewrite (Promise_all_fanout (set_step resource lockId ttl)
              (fun r => match r with Return OK => 1 | _ => 0 end)
              (fun i => CalledSet i resource lockId {| nx := None; px := Some ttl |})
              lockError _
              (fun i r =>
                 try_catch (result <- await (fun s' => (r, s'));;
                            ret (match result with OK => 1 | null => 0 end))
                           (fun err => emit (lockError i err);;; ret 0))).
  - unfold ret. by rewrite fold_left_votes.
  - intros i c s0. cbv [bind call_set record request set_step ret]. simpl.
    by destruct (client_set c resource lockId _ (world s0)).
  - intros i [[]|e] s0; cbv [try_catch bind await emit record ret rejected]; simpl;
      by rewrite ?app_nil_r; destruct s0.
Qed.

Lemma unlockInstances_run (resource lockId : string) (s : State World) :
  unlockInstances this resource lockId s =
  (Return tt,
   mkState (fanout (unlock_step resource lockId) (clients this) (world s)).2
           (log s ++ unlock_log resource lockId
                       (fanout (unlock_step resource lockId) (clients this) (world s)).1)).
Proof.
  unfold unlockInstances, executeOnAllClients. unfold bind at 1.
  erewrite (Promise_all_fanout (unlock_step resource lockId)
              (fun _ => Some tt)
              (fun i => CalledEval i unlockScript [resource] [ArgStr lockId])
              unlockError _
              (fun i r =>
                 try_catch
                   (x <- await (try_catch (await (fun s' => (r, s'));;; ret tt)
                                          (fun err => emit (unlockError i err)));;
                    ret (Some x))
                   (fun err => emit_error this err;;; ret None))).
  - done.
  - intros i c s0. cbv [bind async call_eval record request unlock_step ret]. simpl.
    by destruct (client_eval c unlockScript _ _ (world s0)).
  - intros i [n|e] s0; cbv [try_catch bind await emit record ret rejected]; simpl;
      by rewrite ?app_nil_r; destruct s0.
Qed.

Lemma filter_Number_renewals (rs : list (Completion Z)) :
  Z.of_nat (length (List.filter (fun res => Number res =? 1)
     (map (fun r => Some (match r with Return n => Some n | Throw _ => None end)) rs)))
  = renewals rs.
Proof.
  unfold renewals. do 2 f_equal.
  induction rs as [|r rs IH]; simpl; [done|].
  destruct r as [n|e]; simpl; [destruct (n =? 1)|]; simpl; by rewrite IH.
Qed.

Lemma extend_run (resource lockId : string) (ttl : Z) (s : State World) :
  extend this resource lockId ttl s =
  let rs := fanout (extend_step resource lockId ttl) (clients this) (world s) in
  let l1 := log s ++ extend_log resource lockId ttl rs.1 in
  if renewals rs.1 >=? quorum this then
    (Return tt, mkState rs.2 (l1 ++ [Emitted (lockExtended resource lockId ttl)]))
  else
    (Throw not_extended, mkState rs.2 (l1 ++ [Emitted (error not_extended)])).
Proof.
  unfold extend, executeOnAllClients. unfold bind at 1.
  erewrite (Promise_all_fanout (extend_step resource lockId ttl)
              (fun r => Some (match r with Return n => Some n | Throw _ => None end))
              (fun i => CalledEval i extendScript [resource] [ArgStr lockId; ArgNum ttl])
              extendError _
              (fun i r =>
                 try_catch
                   (x <- await (try_catch (n <- await (fun s' => (r, s'));; ret (Some n))
                                          (fun err => emit (extendError i err);;; ret None));;
                    ret (Some x))
                   (fun err => emit_error this err;;; ret None))).
  - rewrite filter_Number_renewals. simpl.
    destruct (renewals _ >=? quorum this); [reflexivity|].
    apply emit_error_then_throw.
  - intros i c s0. cbv [bind async call_eval record request extend_step ret]. simpl.
    by destruct (client_eval c extendScript _ _ (world s0)).
  - intros i [n|e] s0; cbv [try_catch bind await emit record ret rejected]; simpl;
      by rewrite ?app_nil_r; destruct s0.
Qed.

Lemma attempt_run (resource lockId : string) (ttl startTime attempts : Z) (s : State World) :
  attempt this resource lockId ttl startTime attempts s =
  let rs := fanout (set_step resource lockId ttl) (clients this) (world s) in
  let l1 := log s ++ lock_log resource lockId ttl rs.1 in
  if votes rs.1 >=? quorum this then
    let validityTime := ttl - ((Date_now rs.2).1 - startTime) - drift this ttl in
    if validityTime >? 0 then
      (Return (Some lockId),
       mkState (Date_now rs.2).2 (l1 ++ [Emitted (lockAcquired resource lockId validityTime)]))
    else
      let us := fanout (unlock_step resource lockId) (clients this) (Date_now rs.2).2 in
      (Throw expired,
       mkState us.2
         (l1 ++ unlock_log resource lockId us.1 ++
          [Emitted (error expired)]))
  else
    let us := fanout (unlock_step resource lockId) (clients this) rs.2 in
    (Return None,
     mkState us.2
       (l1 ++ unlock_log resource lockId us.1 ++
        [Emitted (attemptFailed resource lockId attempts)])).
Proof.
  unfold attempt, bind at 1. rewrite lockInstances_run. simpl.
  destruct (votes _ >=? quorum this).
  - unfold bind at 1, perform at 1. simpl.
    destruct (Date_now _) as [now w2]; simpl.
    destruct (_ >? 0).
    + reflexivity.
    + unfold bind at 1. rewrite unlockInstances_run.
      rewrite emit_error_then_throw. simpl. by rewrite <- app_assoc.
  - unfold bind at 1. rewrite unlockInstances_run. simpl.
    cbv [bind emit record ret]. simpl. by rewrite <- app_assoc.
Qed.

Lemma sleep_run (ms : Z) (s : State World) :
  sleep ms s = (Return tt, mkState (setTimeout ms (world s)) (log s ++ [Slept ms])).
Proof. reflexivity. Qed.

Lemma generateLockId_run (s : State World) :
  generateLockId s =
  (Return (toString_hex (randomBytes 16 (world s)).1),
   mkState (randomBytes 16 (world s)).2 (log s)).
Proof.
  cbv [generateLockId bind perform ret].
  by destruct (randomBytes 16 (world s)).
Qed.

Lemma acquire_prologue_run (s : State World) :
  acquire_prologue s =
  (Return (toString_hex (randomBytes 16 (world s)).1,
           (Date_now (randomBytes 16 (world s)).2).1),
   mkState (Date_now (randomBytes 16 (world s)).2).2 (log s)).
Proof.
  unfold acquire_prologue, bind at 1. rewrite generateLockId_run.
  cbv [bind perform ret]. simpl.
  by destruct (Date_now _).
Qed.

Lemma attempt_cases (resource lockId : string) (ttl startTime attempts : Z)
  (s s1 : State World) (c : Completion (option string)) :
  attempt this resource lockId ttl startTime attempts s = (c, s1) ->
  c = Return (Some lockId) \/ c = Return None \/ c = Throw expired.
Proof.
  rewrite attempt_run. cbv zeta.
  destruct (votes _ >=? _); [destruct (_ >? 0)|]; intros [= <- _]; auto.
Qed.

Lemma acquire_loop_total (resource lockId : string) (ttl startTime : Z) :
  forall (fuel : nat) (attempts : Z) (s : State World),
    (Z.to_nat (retryCount this - attempts) < fuel)%nat ->
    exists c s',
      acquire_loop this fuel resource lockId ttl startTime attempts s = Some (c, s').
Proof.
  induction fuel as [|fuel IH]; intros attempts s Hfuel; [lia|].
  cbn [acquire_loop]. destruct (Z.ltb_spec attempts (retryCount this)) as [Hlt|Hge].
  - destruct (attempt this resource lockId ttl startTime attempts s) as [[[r|]|e] s1];
      [eauto| |eauto].
    rewrite sleep_run. apply IH. lia.
  - rewrite emit_error_then_throw. eauto.
Qed.

Lemma acquire_loop_inv (resource lockId : string) (ttl startTime : Z) :
  forall (fuel : nat) (attempts : Z) (s : State World) c s',
    acquire_loop this fuel resource lockId ttl startTime attempts s = Some (c, s') ->
    exists k sk,
      rtc (next_attempt this resource lockId ttl startTime) (attempts, s) (k, sk) /\
      ((k < retryCount this /\ c = Return lockId /\
        attempt this resource lockId ttl startTime k sk = (Return (Some lockId), s')) \/
       (k < retryCount this /\ c = Throw expired /\
        attempt this resource lockId ttl startTime k sk = (Throw expired, s')) \/
       (retryCount this <= k /\ c = Throw exhausted /\
        s' = mkState (world sk) (log sk ++ [Emitted (error exhausted)]))).
Proof.
  induction fuel as [|fuel IH]; intros attempts s c s' Hrun; [done|].
  cbn [acquire_loop] in Hrun.
  destruct (Z.ltb_spec attempts (retryCount this)) as [Hlt|Hge].
  - destruct (attempt this resource lockId ttl startTime attempts s) as [c1 s1] eqn:Hatt.
    destruct (attempt_cases _ _ _ _ _ _ _ _ Hatt) as [-> | [-> | ->]].
    + injection Hrun as <- <-. exists attempts, s. split; [apply rtc_refl|]. left. done.
    + rewrite sleep_run in Hrun.
      apply IH in Hrun as (k & sk & Hreach & Hcases).
      exists k, sk. split; [|done].
      eapply rtc_l; [|exact Hreach].
      econstructor; [done|exact Hatt|apply sleep_run].
    + injection Hrun as <- <-. exists attempts, s. split; [apply rtc_refl|].
      right; left. done.
  - rewrite emit_error_then_throw in Hrun.
    injection Hrun as <- <-. exists attempts, s.
    split; [apply rtc_refl|]. right; right. done.
Qed.

Lemma attempt_success_inv (resource lockId : string) (ttl startTime attempts : Z)
  (s s' : State World) (token : string) :
  attempt this resource lockId ttl startTime attempts s = (Return (Some token), s') ->
  let rs := fanout (set_step resource lockId ttl) (clients this) (world s) in
  let validityTime := ttl - ((Date_now rs.2).1 - startTime) - drift this ttl in
  token = lockId /\ votes rs.1 >= quorum this /\ validityTime > 0 /\
  s' = mkState (Date_now rs.2).2
         (log s ++ lock_log resource lockId ttl rs.1 ++
          [Emitted (lockAcquired resource lockId validityTime)]).
Proof.
  rewrite attempt_run. cbv zeta.
  destruct (Z.geb_spec (votes (fanout (set_step resource lockId ttl) (clients this)
                                      (world s)).1) (quorum this)); [|done].
  destruct (Z.gtb_spec (ttl - ((Date_now (fanout (set_step resource lockId ttl)
               (clients this) (world s)).2).1 - startTime) - drift this ttl) 0); [|done].
  intros [= <- <-]. rewrite <- app_assoc. repeat split; lia.
Qed.

Lemma attempt_retry_inv (resource lockId : string) (ttl startTime attempts : Z)
  (s s' : State World) :
  attempt this resource lockId ttl startTime attempts s = (Return None, s') ->
  let rs := fanout (set_step resource lockId ttl) (clients this) (world s) in
  let us := fanout (unlock_step resource lockId) (clients this) rs.2 in
  votes rs.1 < quorum this /\
  s' = mkState us.2
         (log s ++ lock_log resource lockId ttl rs.1 ++
          unlock_log resource lockId us.1 ++
          [Emitted (attemptFailed resource lockId attempts)]).
Proof.
  rewrite attempt_run. cbv zeta.
  destruct (Z.geb_spec (votes (fanout (set_step resource lockId ttl) (clients this)
                                      (world s)).1) (quorum this)).
  - by destruct (_ >? 0).
  - intros [= <-]. rewrite <- app_assoc. split; [lia|done].
Qed.

Lemma CalledSet_in_lock_log (resource lockId : string) (ttl : Z)
  (rs : list (Completion SetReply)) (i : nat) (key token : string) (options : SetOptions) :
  CalledSet i key token options ∈ lock_log resource lockId ttl rs ->
  key = resource /\ token = lockId.
Proof.
  intros Hin. by apply lock_log_entries in Hin as [[j [= -> -> -> ->]]|(j & e & [=])].
Qed.

Lemma CalledSet_not_in_unlock_log (resource lockId : string)
  (rs : list (Completion Z)) (i : nat) (key token : string) (options : SetOptions) :
  CalledSet i key token options ∉ unlock_log resource lockId rs.
Proof.
  intros Hin. apply unlock_log_entries in Hin as [[j [=]]|(j & e & [=])].
Qed.

Lemma next_attempt_log (resource lockId : string) (ttl startTime : Z)
  (x y : Z * State World) :
  rtc (next_attempt this resource lockId ttl startTime) x y ->
  x.1 <= y.1 /\
  exists ext,
    log y.2 = log x.2 ++ ext /\
    forall i key token options,
      CalledSet i key token options ∈ ext -> key = resource /\ token = lockId.
Proof.
  induction 1 as [x|x y z Hstep _ (Hle & ext & Hlog & Hext)].
  - split; [lia|]. exists []. split; [by rewrite app_nil_r|].
    intros ???? Hin. by apply elem_of_nil in Hin.
  - destruct Hstep as [attempts s s1 s2 Hlt Hatt Hsleep]. simpl in *.
    apply attempt_retry_inv in Hatt as [_ ->].
    rewrite sleep_run in Hsleep. injection Hsleep as <-. simpl in Hlog.
    split; [lia|]. eexists. rewrite Hlog. split.
    { rewrite <- !app_assoc. reflexivity. }
    intros i key token options.
    rewrite !elem_of_app.
    intros [Hin|[Hin|[Hin|[Hin|Hin]]]].
    + by apply CalledSet_in_lock_log in Hin.
    + by apply CalledSet_not_in_unlock_log in Hin.
    + by apply list_elem_of_singleton in Hin.
    + by apply list_elem_of_singleton in Hin.
    + by apply Hext in Hin.
Qed.

Lemma lock_log_carries (resource lockId : string) (ttl : Z)
  (rs : list (Completion SetReply)) :
  Forall (carries_token resource lockId) (lock_log resource lockId ttl rs).
Proof.
  apply Forall_forall. intros x Hin.
  by apply lock_log_entries in Hin as [[i ->]|(i & e & ->)].
Qed.

Lemma unlock_log_carries (resource lockId : string) (rs : list (Completion Z)) :
  Forall (carries_token resource lockId) (unlock_log resource lockId rs).
Proof.
  apply Forall_forall. intros x Hin.
  by apply unlock_log_entries in Hin as [[i ->]|(i & e & ->)].
Qed.

Lemma attempt_entries (resource lockId : string) (ttl startTime attempts : Z)
  (s s' : State World) (c : Completion (option string)) :
  attempt this resource lockId ttl startTime attempts s = (c, s') ->
  exists ext, log s' = log s ++ ext /\ Forall (carries_token resource lockId) ext.
Proof.
  rewrite attempt_run. cbv zeta.
  pose proof (lock_log_carries resource lockId ttl) as Hlock.
  pose proof (unlock_log_carries resource lockId) as Hunlock.
  destruct (votes _ >=? _); [destruct (_ >? 0)|]; intros [= _ <-]; simpl;
    eexists; (split; [rewrite <- ?app_assoc; reflexivity|]);
    rewrite ?Forall_app; repeat split; auto; by repeat constructor.
Qed.

Lemma next_attempt_entries (resource lockId : string) (ttl startTime : Z)
  (x y : Z * State World) :
  rtc (next_attempt this resource lockId ttl startTime) x y ->
  exists ext, log y.2 = log x.2 ++ ext /\ Forall (carries_token resource lockId) ext.
Proof.
  induction 1 as [x|x y z Hstep _ (ext & Hlog & Hext)].
  - exists []. split; [by rewrite app_nil_r|constructor].
  - destruct Hstep as [attempts s s1 s2 Hlt Hatt Hsleep]. simpl in *.
    apply attempt_entries in Hatt as (ext1 & Hlog1 & Hext1).
    rewrite sleep_run in Hsleep. injection Hsleep as <-. simpl in Hlog.
    exists (ext1 ++ [Slept (retryDelay this)] ++ ext).
    split; [by rewrite Hlog, Hlog1, <- !app_assoc|].
    rewrite !Forall_app. repeat split; auto. by repeat constructor.
Qed.

(** All the calls that one [acquire] makes to the stores carry the token
    it drew at its start. *)
Lemma acquire_entries (fuel : nat) (resource : string) (ttl : Z)
  (s s' : State World) (c : Completion string) :
  acquire this fuel resource ttl s = Some (c, s') ->
  let lockId := toString_hex (randomBytes 16 (world s)).1 in
  exists ext,
    log s' = log s ++ ext /\
    Forall (carries_token resource lockId) ext /\
    (c = Return lockId \/ c = Throw expired \/ c = Throw exhausted).
Proof.
  unfold acquire. rewrite acquire_prologue_run.
  set (lockId := toString_hex _). set (startTime := (Date_now _).1). set (s0 := mkState _ _).
  intros Hrun. cbv zeta.
  apply acquire_loop_inv in Hrun as (k & sk & Hreach & Hcases).
  apply next_attempt_entries in Hreach as (ext & Hlog & Hext). simpl in Hlog.
  destruct Hcases as [(_ & -> & Hatt)|[(_ & -> & Hatt)|(_ & -> & ->)]].
  - apply attempt_entries in Hatt as (ext1 & Hlog1 & Hext1).
    exists (ext ++ ext1). rewrite Hlog1, Hlog, <- app_assoc.
    split; [done|]. split; [by apply Forall_app|auto].
  - apply attempt_entries in Hatt as (ext1 & Hlog1 & Hext1).
    exists (ext ++ ext1). rewrite Hlog1, Hlog, <- app_assoc.
    split; [done|]. split; [by apply Forall_app|auto].
  - simpl. exists (ext ++ [Emitted (error exhausted)]). rewrite Hlog, <- app_assoc.
    split; [done|]. split; [|auto].
    apply Forall_app. split; [done|]. by repeat constructor.
Qed.

End CoordinatorLemmas.

(** ** The constructor *)

(** C10: an explicit [retryCount] of 0 or [retryDelay] of 0 is replaced by
    the default (3, 200 ms), because the options are defaulted with [||];
    no options give a coordinator whose retry count or delay is zero. *)
Theorem constructor_zero_is_defaulted {World : Type} (cs : list (RedisClient World)) :
  (forall d, retryCount (new_Redlock cs
       (Some {| option_retryCount := Some 0; option_retryDelay := d |})) = 3) /\
  (forall c, retryDelay (new_Redlock cs
       (Some {| option_retryCount := c; option_retryDelay := Some 0 |})) = 200) /\
  (forall options, retryCount (new_Redlock cs options) <> 0 /\
                   retryDelay (new_Redlock cs options) <> 0).
Proof.
  split; [done|]. split; [done|].
  intros [[[c|] [d|]]|]; simpl; unfold js_or; split;
    repeat match goal with |- context [?x =? 0] => destruct (Z.eqb_spec x 0) end; lia.
Qed.

(** ** The drift budget *)

Lemma Qfloor_hundredth (ttl : Z) : Qfloor ((1 # 100) * inject_Z ttl) = ttl / 100.
Proof.
  unfold Qfloor, Qmult, inject_Z. simpl Qnum. simpl Qden.
  by rewrite Z.mul_1_l.
Qed.

Lemma Qceiling_hundredth (ttl : Z) : Qceiling ((1 # 100) * inject_Z ttl) = - (- ttl / 100).
Proof.
  unfold Qceiling, Qfloor, Qopp, Qmult, inject_Z. simpl Qnum. simpl Qden.
  by rewrite Z.mul_1_l.
Qed.

(** C5, as the code has it: the drift budget is floor(0.01 x ttl) + 2.  It
    is the budget of the specification, ceil(0.01 x ttl) + 2, when ttl is
    a multiple of 100, and one millisecond less otherwise. *)
Theorem drift_is_floor_plus_margin {World : Type} (cs : list (RedisClient World))
  (options : option RedlockOptions) (ttl : Z) :
  let this := new_Redlock cs options in
  clockDriftFactor this = (1 # 100)%Q /\
  drift this ttl = ttl / 100 + 2 /\
  100 * (drift this ttl - 2) <= ttl < 100 * (drift this ttl - 2) + 100 /\
  drift this ttl =
    drift_budget_spec (clockDriftFactor this) 2 ttl - (if ttl mod 100 =? 0 then 0 else 1).
Proof.
  cbv zeta. unfold drift, drift_budget_spec. simpl clockDriftFactor.
  rewrite Qfloor_hundredth, Qceiling_hundredth.
  split; [done|]. split; [done|]. split.
  - Z.div_mod_to_equations. lia.
  - destruct (Z.eqb_spec (ttl mod 100) 0); Z.div_mod_to_equations; lia.
Qed.

(** C5, as stated, fails at ttl = 150: the code subtracts 3 ms, the
    ceiling would give 4 ms. *)
Lemma drift_is_not_ceiling_at_150 :
  drift (@new_Redlock Cluster [] None) 150 = 3 /\
  drift_budget_spec (clockDriftFactor (@new_Redlock Cluster [] None)) 2 150 = 4 /\
  drift (@new_Redlock Cluster [] None) 150
  <> drift_budget_spec (clockDriftFactor (@new_Redlock Cluster [] None)) 2 150.
Proof. split; [reflexivity|]. split; [reflexivity|]. by vm_compute. Qed.

(** The rational model of the drift against the doubles of JavaScript:
    for every ttl of up to 10000 ms the double product, floored, is the
    floor of the rational product. *)
Lemma agrees_from_spec (n : nat) :
  forall ttl, Binary64.agrees_from ttl n = true ->
    forall k, ttl <= k < ttl + Z.of_nat n -> Binary64.drift k = Some (k / 100 + 2).
Proof.
  induction n as [|n IH]; intros ttl Hagree k Hk; [lia|].
  simpl in Hagree. apply andb_true_iff in Hagree as [Hhere Hrest].
  apply bool_decide_eq_true_1 in Hhere.
  destruct (Z.eq_dec k ttl) as [->|Hne]; [done|].
  apply (IH (ttl + 1)); [done|lia].
Qed.

Lemma binary64_drift_agrees {World : Type} (cs : list (RedisClient World))
  (options : option RedlockOptions) (ttl : Z) :
  0 <= ttl <= 10000 ->
  Binary64.drift ttl = Some (drift (new_Redlock cs options) ttl).
Proof.
  intros Httl. unfold drift. simpl clockDriftFactor. rewrite Qfloor_hundredth.
  apply (agrees_from_spec (Z.to_nat 10001) 0); [by vm_compute|lia].
Qed.

(** ** Acquire: the fan-out of conditional-sets *)

Section Claims.
Context {World : Type} `{Runtime World}.
Variable this : Redlock World.


(** ** Extend *)

(** C6: [extend] calls every store once; it returns normally and emits
    [lockExtended {resource, lockId, ttl}] if and only if at least
    [quorum] stores answered 1; otherwise it emits [error], throws, and
    has emitted no [lockExtended].  No store is called a second time. *)
Theorem extend_succeeds_iff_quorum_renewed (resource lockId : string) (ttl : Z)
  (s : State World) :
  let rs := (fanout (extend_step resource lockId ttl) (clients this) (world s)).1 in
  exists c s' ext,
    extend this resource lockId ttl s = (c, s') /\
    log s' = log s ++ ext /\
    store_calls ext =
      map (fun i => CalledEval i extendScript [resource] [ArgStr lockId; ArgNum ttl])
          (seq 0 (length (clients this))) /\
    (c = Return tt <-> renewals rs >= quorum this) /\
    (Emitted (lockExtended resource lockId ttl) ∈ ext <-> renewals rs >= quorum this) /\
    (c = Throw not_extended <-> renewals rs < quorum this) /\
    (Emitted (error not_extended) ∈ ext <-> renewals rs < quorum this).
Proof.
  cbv zeta. rewrite extend_run. cbv zeta.
  set (rs := fanout _ _ _).
  assert (Hcalls : forall tail,
    store_calls (extend_log resource lockId ttl rs.1 ++ [Emitted tail]) =
    map (fun i => CalledEval i extendScript [resource] [ArgStr lockId; ArgNum ttl])
        (seq 0 (length (clients this)))).
  { intros tail. unfold store_calls. rewrite List.filter_app. simpl. rewrite app_nil_r.
    fold (store_calls (extend_log resource lockId ttl rs.1)).
    rewrite extend_log_calls. unfold rs. by rewrite fanout_length. }
  assert (Hfan : forall tail tail',
    Emitted tail ∈ extend_log resource lockId ttl rs.1 ++ [Emitted tail'] ->
    (forall i e, tail <> extendError i e) -> tail = tail').
  { intros tail tail' [Hin|Hin]%elem_of_app Hne.
    - apply extend_log_entries in Hin as [[i [=]]|(i & e & [= ->])].
      by destruct (Hne i e).
    - apply list_elem_of_singleton in Hin. by injection Hin. }
  assert (Hlast : forall tail,
    Emitted tail ∈ extend_log resource lockId ttl rs.1 ++ [Emitted tail]).
  { intros tail. apply elem_of_app. right. apply list_elem_of_here. }
  destruct (Z.geb_spec (renewals rs.1) (quorum this)) as [Hq|Hq].
  - eexists _, _, _. split; [reflexivity|]. simpl.
    split; [by rewrite <- app_assoc|].
    split; [apply Hcalls|].
    split; [split; [lia|done]|].
    split; [split; [lia|intros _; apply Hlast]|].
    split; [split; [done|lia]|].
    split; [|lia]. intros Hin. apply Hfan in Hin; done.
  - eexists _, _, _. split; [reflexivity|]. simpl.
    split; [by rewrite <- app_assoc|].
    split; [apply Hcalls|].
    split; [split; [done|lia]|].
    split; [split; [|lia]|].
    { intros Hin. apply Hfan in Hin; done. }
    split; [split; [lia|done]|].
    split; [lia|]. intros _. apply Hlast.
Qed.

(** ** Release *)

(** C7: for every resource and token and whatever the stores answer or
    throw, [release] sends the check-then-delete to every store, returns
    normally, and ends by emitting [lockReleased {resource, lockId}]. *)
Theorem release_always_succeeds (resource lockId : string) (s : State World) :
  let rs := (fanout (unlock_step resource lockId) (clients this) (world s)).1 in
  exists s' ext,
    release this resource lockId s = (Return tt, s') /\
    log s' = log s ++ ext ++ [Emitted (lockReleased resource lockId)] /\
    store_calls ext =
      map (fun i => CalledEval i unlockScript [resource] [ArgStr lockId])
          (seq 0 (length (clients this))) /\
    (forall i e, Emitted (unlockError i e) ∈ ext <-> rs !! i = Some (Throw e)) /\
    (forall e, Emitted (error e) ∉ ext).
Proof.
  cbv zeta. unfold release, try_catch, bind at 1. rewrite unlockInstances_run.
  eexists _, _. split; [reflexivity|]. simpl.
  split; [by rewrite <- app_assoc|].
  split; [by rewrite unlock_log_calls, fanout_length|].
  split.
  - intros i e. apply unlock_log_rejections.
  - intros e Hin. apply unlock_log_entries in Hin as [[i [=]]|(i & e' & [=])].
Qed.

(** ** Acquire: the retry loop *)

(** C2: with fuel for the loop, [acquire] ends; it returns a token only
    out of an attempt in which the stores that confirmed the creation were
    at least [quorum] and the validity time computed then was strictly
    positive; whenever it does not return a token it throws one of its two
    errors. *)
Theorem acquire_returns_only_on_quorum_and_validity (fuel : nat) (resource : string)
  (ttl : Z) (s : State World) :
  (Z.to_nat (retryCount this) < fuel)%nat ->
  exists c s',
    acquire this fuel resource ttl s = Some (c, s') /\
    match c with
    | Return token =>
        exists startTime s0 k sk n s1,
          acquire_prologue s = (Return (token, startTime), s0) /\
          rtc (next_attempt this resource token ttl startTime) (0, s0) (k, sk) /\
          0 <= k < retryCount this /\
          lockInstances this resource token ttl sk = (Return n, s1) /\
          n = votes (fanout (set_step resource token ttl) (clients this) (world sk)).1 /\
          n >= quorum this /\
          let validityTime := ttl - ((Date_now (world s1)).1 - startTime) - drift this ttl in
          validityTime > 0 /\
          s' = mkState (Date_now (world s1)).2
                 (log s1 ++ [Emitted (lockAcquired resource token validityTime)])
    | Throw e => e = expired \/ e = exhausted
    end.
Proof.
  intros Hfuel. unfold acquire. rewrite acquire_prologue_run.
  set (lockId := toString_hex _). set (startTime := (Date_now _).1). set (s0 := mkState _ _).
  destruct (acquire_loop_total this resource lockId ttl startTime fuel 0 s0)
    as (c & s' & Hrun); [rewrite Z.sub_0_r; lia|].
  exists c, s'. split; [done|].
  apply acquire_loop_inv in Hrun
    as (k & sk & Hreach & [(Hk & -> & Hatt)|[(Hk & -> & Hatt)|(Hk & -> & _)]]); auto.
  apply attempt_success_inv in Hatt as (_ & Hvotes & Hvalid & ->).
  pose proof (next_attempt_log _ _ _ _ _ _ _ Hreach) as [Hle _]. simpl in Hle.
  exists startTime, s0, k, sk. eexists _, _.
  split; [done|]. split; [done|]. split; [lia|].
  split; [apply lockInstances_run|]. simpl.
  split; [done|]. split; [done|]. split; [done|].
  by rewrite <- app_assoc.
Qed.

(** C3, as the code has it: one acquire call draws one token, before its
    first attempt, the hexadecimal rendering of 16 random bytes; every
    conditional-set of the call, in the first attempt and in every retry,
    carries that token, and so does every check-then-delete of its
    rollbacks; the token returned is that one.  Across calls: a
    conditional-set that any other acquire call adds to the log carries
    this token exactly when the two calls drew the same bytes. *)
Theorem acquire_uses_one_token_in_all_attempts (fuel : nat) (resource : string) (ttl : Z)
  (s s' : State World) (c : Completion string) :
  acquire this fuel resource ttl s = Some (c, s') ->
  exists lockId s_id ext,
    generateLockId s = (Return lockId, s_id) /\
    lockId = toString_hex (randomBytes 16 (world s)).1 /\
    log s' = log s ++ ext /\
    (forall i key token options,
       CalledSet i key token options ∈ ext -> key = resource /\ token = lockId) /\
    (forall i script keys args,
       CalledEval i script keys args ∈ ext ->
       script = unlockScript /\ keys = [resource] /\ args = [ArgStr lockId]) /\
    (c = Return lockId \/ c = Throw expired \/ c = Throw exhausted) /\
    (forall (other : Redlock World) fuel2 resource2 ttl2 (s2 s2' : State World) c2,
       acquire other fuel2 resource2 ttl2 s2 = Some (c2, s2') ->
       forall i key token options,
         CalledSet i key token options ∈ drop (length (log s2)) (log s2') ->
         token = lockId <->
         (randomBytes 16 (world s2)).1 = (randomBytes 16 (world s)).1).
Proof.
  intros Hrun. apply acquire_entries in Hrun as (ext & Hlog & Hext & Hc).
  rewrite Forall_forall in Hext.
  eexists _, _, ext. rewrite generateLockId_run.
  split; [reflexivity|]. split; [reflexivity|]. split; [exact Hlog|].
  split; [intros i key token options Hin; exact (Hext _ Hin)|].
  split; [intros i script keys args Hin; exact (Hext _ Hin)|].
  split; [exact Hc|].
  intros other fuel2 resource2 ttl2 s2 s2' c2 Hrun2 i key token options Hin.
  apply acquire_entries in Hrun2 as (ext2 & Hlog2 & Hext2 & _).
  rewrite Hlog2, drop_app_length in Hin.
  rewrite Forall_forall in Hext2. destruct (Hext2 _ Hin) as [_ ->].
  split; [apply toString_hex_inj|by intros ->].
Qed.


(** C8: an attempt that does not acquire the lock, for want of votes or
    because the validity time is not positive, rolls back: right after
    its conditional-sets it sends the check-then-delete with its token to
    every store, every store acts on it, and an [unlockError] is emitted
    exactly for the stores that threw.  With too few votes the loop goes
    on, after [attemptFailed] and the delay, from the world the rollback
    left; with quorum but no validity left [acquire] throws at once, the
    rollback and the [error] event being the last things it did. *)
Theorem failed_attempt_rolls_back (fuel : nat) (resource lockId : string)
  (ttl startTime attempts : Z) (s : State World) :
  let rs := fanout (set_step resource lockId ttl) (clients this) (world s) in
  let validityTime := ttl - ((Date_now rs.2).1 - startTime) - drift this ttl in
  let us := fanout (unlock_step resource lockId) (clients this)
                   (if votes rs.1 >=? quorum this then (Date_now rs.2).2 else rs.2) in
  attempts < retryCount this ->
  votes rs.1 < quorum this \/ validityTime <= 0 ->
  exists sets rollback,
    store_calls sets =
      map (fun i => CalledSet i resource lockId {| nx := None; px := Some ttl |})
          (seq 0 (length (clients this))) /\
    store_calls rollback =
      map (fun i => CalledEval i unlockScript [resource] [ArgStr lockId])
          (seq 0 (length (clients this))) /\
    (forall i e, Emitted (unlockError i e) ∈ rollback <-> us.1 !! i = Some (Throw e)) /\
    acquire_loop this (S fuel) resource lockId ttl startTime attempts s =
    if votes rs.1 >=? quorum this then
      Some (Throw expired,
            mkState us.2 (log s ++ sets ++ rollback ++ [Emitted (error expired)]))
    else
      acquire_loop this fuel resource lockId ttl startTime (attempts + 1)
        (mkState (setTimeout (retryDelay this) us.2)
                 (log s ++ sets ++ rollback ++
                  [Emitted (attemptFailed resource lockId attempts);
                   Slept (retryDelay this)])).
Proof.
  cbv zeta. intros Hlt Hfail. cbn [acquire_loop].
  apply Z.ltb_lt in Hlt as ->. rewrite attempt_run. cbv zeta.
  set (rs := fanout (set_step resource lockId ttl) (clients this) (world s)) in *.
  exists (lock_log resource lockId ttl rs.1).
  destruct (Z.geb_spec (votes rs.1) (quorum this)) as [Hq|Hq].
  - destruct (Z.gtb_spec (ttl - ((Date_now rs.2).1 - startTime) - drift this ttl) 0);
      [lia|].
    exists (unlock_log resource lockId
              (fanout (unlock_step resource lockId) (clients this) (Date_now rs.2).2).1).
    split; [unfold rs; by rewrite lock_log_calls, fanout_length|].
    split; [by rewrite unlock_log_calls, fanout_length|].
    split; [intros i e; apply unlock_log_rejections|].
    by rewrite <- !app_assoc.
  - rewrite sleep_run. simpl.
    exists (unlock_log resource lockId
              (fanout (unlock_step resource lockId) (clients this) rs.2).1).
    split; [unfold rs; by rewrite lock_log_calls, fanout_length|].
    split; [by rewrite unlock_log_calls, fanout_length|].
    split; [intros i e; apply unlock_log_rejections|].
    by rewrite <- !app_assoc.
Qed.

End Claims.

(** ** The coordinator over Redis servers *)

(** [SET] with [NX] leaves a live entry alone; without [NX] it replaces
    it. *)
Lemma SET_NX_keeps_live_entry (now : Z) (key val : string) (flags : list SetFlag)
  (db : gmap string Item) :
  has_NX flags = true -> is_Some (GET now key db) ->
  SET now key val flags db = (null, db).
Proof.
  intros HNX Hlive. unfold SET. rewrite HNX. simpl.
  by rewrite bool_decide_eq_true_2.
Qed.

Lemma SET_without_NX_overwrites (now : Z) (key val : string) (flags : list SetFlag)
  (db : gmap string Item) :
  has_NX flags = false ->
  SET now key val flags db =
  (OK, <[key := {| value := val; expiresAt := expiry_of now flags |}]> db).
Proof. intros HNX. unfold SET. by rewrite HNX. Qed.

(** What the request of [lockInstances], [{ px: ttl }], becomes in each
    adapter. *)
Lemma NodeRedisAdapter_sends_NX (ttl : Z) :
  has_NX (NodeRedisAdapter_setOptions {| nx := None; px := Some ttl |}) = true.
Proof. unfold NodeRedisAdapter_setOptions. simpl. by destruct (ttl =? 0). Qed.

Lemma IORedisAdapter_sends_no_NX (ttl : Z) :
  has_NX (IORedisAdapter_args {| nx := None; px := Some ttl |}) = false.
Proof. unfold IORedisAdapter_args. simpl. by destruct (ttl =? 0). Qed.

Lemma NodeRedisAdapter_optional_NX_sends_no_NX (ttl : Z) :
  has_NX (NodeRedisAdapter_optional_NX_setOptions {| nx := None; px := Some ttl |}) = false.
Proof. unfold NodeRedisAdapter_optional_NX_setOptions. simpl. by destruct (ttl =? 0). Qed.

(** C1, on the code: over adapters/IORedisAdapter.ts the set request of
    [lockInstances] is not conditional.  A store holds the key under token
    A until time 5000; the attempt with token B at time 0 is answered OK,
    counts as a vote, and the store holds the key under B.  Over
    adapters/NodeRedisAdapter.ts the same attempt gets no vote and A
    stays. *)
Theorem lockInstances_overwrites_through_IORedisAdapter :
  let s := cluster_of [held_server "r" "A" 5000] in
  stored s 0 "r" = Some "A"%string /\
  (exists s', lockInstances (new_Redlock [IORedisAdapter 0] None) "r" "B" 1000 s
              = (Return 1, s') /\
              stored s' 0 "r" = Some "B"%string) /\
  (exists s', lockInstances (new_Redlock [NodeRedisAdapter 0] None) "r" "B" 1000 s
              = (Return 0, s') /\
              stored s' 0 "r" = Some "A"%string).
Proof.
  cbv zeta. split; [by vm_compute|]. split.
  - eexists. split; [by vm_compute|]. by vm_compute.
  - eexists. split; [by vm_compute|]. by vm_compute.
Qed.

Lemma IORedisAdapter_set_always_OK (w : Cluster) (i : nat) (srv : Server)
  (key val : string) (ttl : Z) :
  servers w !! i = Some srv -> reachable srv = true ->
  (client_set (IORedisAdapter i) key val {| nx := None; px := Some ttl |} w).1 = Return OK.
Proof.
  intros Hsrv Hup. simpl. unfold command. rewrite Hsrv, Hup.
  by rewrite SET_without_NX_overwrites by apply IORedisAdapter_sends_no_NX.
Qed.

Lemma NodeRedisAdapter_set_respects_holder (w : Cluster) (i : nat) (srv : Server)
  (key val : string) (ttl : Z) :
  servers w !! i = Some srv -> reachable srv = true ->
  is_Some (GET (clock w + latency srv) key (data srv)) ->
  exists w',
    client_set (NodeRedisAdapter i) key val {| nx := None; px := Some ttl |} w
    = (Return null, w') /\
    (data <$> servers w' !! i) = Some (data srv).
Proof.
  intros Hsrv Hup Hlive. simpl. unfold command. rewrite Hsrv, Hup.
  rewrite SET_NX_keeps_live_entry by (done || apply NodeRedisAdapter_sends_NX).
  eexists. split; [reflexivity|]. simpl.
  rewrite list_lookup_insert_eq by (by eapply lookup_lt_Some). done.
Qed.

(** The same on a whole call, as in the integration test that acquires a
    resource twice: while a lock is held on all three stores until time
    5000, [acquire] over adapters/NodeRedisAdapter.ts gives up after its
    retries and the holder keeps the stores; over
    adapters/IORedisAdapter.ts it returns a token at the first attempt
    and the stores hold that token. *)
Example acquire_while_held :
  (exists s', acquire node_redlock 4 "r" 1000 (held_until 5000) = Some (Throw exhausted, s') /\
              stored s' 0 "r" = Some "A"%string /\
              stored s' 1 "r" = Some "A"%string /\
              stored s' 2 "r" = Some "A"%string) /\
  (exists token s',
     acquire ioredis_redlock 4 "r" 1000 (held_until 5000) = Some (Return token, s') /\
     token <> "A"%string /\
     stored s' 0 "r" = Some token /\
     stored s' 1 "r" = Some token /\
     stored s' 2 "r" = Some token /\
     set_tokens 0 (log s') = [token]).
Proof.
  split.
  - eexists. split; [by vm_compute|]. by vm_compute.
  - eexists _, _. split; [by vm_compute|]. by vm_compute.
Qed.

(** One of three stores is unreachable: the call succeeds on the two
    others and reports the third. *)
Example acquire_with_one_store_down :
  exists token s',
    acquire node_redlock 4 "r" 1000 (cluster_of [idle_server; idle_server; down_server])
    = Some (Return token, s') /\
    Emitted (lockError 2 (Error "Connection is closed.")) ∈ log s' /\
    last (log s') = Some (Emitted (lockAcquired "r" token 985)).
Proof.
  eexists _, _. split; [by vm_compute|].
  split; [|by vm_compute].
  vm_compute. do 3 apply list_elem_of_further. apply list_elem_of_here.
Qed.

(** ** A call with a retry

    Three node-redis stores hold the key under another token until time
    50.  The first attempt gets no vote and is rolled back; after the
    delay of 100 ms the entries have expired and the second attempt
    acquires the lock. *)

(** C3, as stated, fails on that call: the two attempts send their
    conditional-sets with the same token. *)
Lemma retry_reuses_the_token :
  exists token s',
    acquire node_redlock 4 "r" 1000 (held_until 50) = Some (Return token, s') /\
    set_tokens 0 (log s') = [token; token] /\
    ~ fresh_token_per_attempt (log s').
Proof.
  eexists _, _. split; [by vm_compute|].
  split; [by vm_compute|].
  unfold fresh_token_per_attempt. vm_compute.
  intros Hnd. apply NoDup_cons in Hnd as [Hnot _]. apply Hnot. apply list_elem_of_here.
Qed.


(** ** The theorems at work on that call *)

Lemma acquire_returns_only_on_quorum_and_validity_witness :
  (Z.to_nat (retryCount node_redlock) < 4)%nat /\
  exists token s',
    acquire node_redlock 4 "r" 1000 (held_until 50) = Some (Return token, s') /\
    exists k sk n s1,
      0 <= k < retryCount node_redlock /\
      lockInstances node_redlock "r" token 1000 sk = (Return n, s1) /\
      n >= quorum node_redlock.
Proof.
  assert (Hfuel : (Z.to_nat (retryCount node_redlock) < 4)%nat) by (vm_compute; lia).
  split; [exact Hfuel|].
  destruct (acquire_returns_only_on_quorum_and_validity
              node_redlock 4 "r" 1000 (held_until 50) Hfuel) as (c & s' & Hrun & Hc).
  destruct c as [token|e].
  - destruct Hc as (startTime & s0 & k & sk & n & s1 & _ & _ & Hk & Hlock & _ & Hn & _).
    exists token, s'. split; [exact Hrun|]. exists k, sk, n, s1. auto.
  - exfalso. vm_compute in Hrun. discriminate.
Defined.

Lemma acquire_uses_one_token_in_all_attempts_witness :
  exists c s',
    acquire node_redlock 4 "r" 1000 (held_until 50) = Some (c, s') /\
    exists lockId s_id ext,
      generateLockId (held_until 50) = (Return lockId, s_id) /\
      lockId = toString_hex (randomBytes 16 (world (held_until 50))).1 /\
      log s' = log (held_until 50) ++ ext /\
      (forall i key token options,
         CalledSet i key token options ∈ ext -> key = "r"%string /\ token = lockId) /\
      (forall i script keys args,
         CalledEval i script keys args ∈ ext ->
         script = unlockScript /\ keys = ["r"%string] /\ args = [ArgStr lockId]) /\
      (c = Return lockId \/ c = Throw expired \/ c = Throw exhausted) /\
      (forall (other : Redlock Cluster) fuel2 resource2 ttl2 (s2 s2' : State Cluster) c2,
         acquire other fuel2 resource2 ttl2 s2 = Some (c2, s2') ->
         forall i key token options,
           CalledSet i key token options ∈ drop (length (log s2)) (log s2') ->
           token = lockId <->
           (randomBytes 16 (world s2)).1 = (randomBytes 16 (world (held_until 50))).1).
Proof.
  eexists _, _. split; [by vm_compute|].
  apply (acquire_uses_one_token_in_all_attempts node_redlock 4 "r" 1000 (held_until 50)).
  by vm_compute.
Defined.


Lemma failed_attempt_rolls_back_witness :
  let s := held_until 50 in
  let rs := fanout (set_step "r" "t" 1000) (clients node_redlock) (world s) in
  let us := fanout (unlock_step "r" "t") (clients node_redlock)
                   (if votes rs.1 >=? quorum node_redlock then (Date_now rs.2).2 else rs.2) in
  0 < retryCount node_redlock /\
  votes rs.1 < quorum node_redlock /\
  exists sets rollback,
    store_calls sets =
      map (fun i => CalledSet i "r" "t" {| nx := None; px := Some 1000 |})
          (seq 0 (length (clients node_redlock))) /\
    store_calls rollback =
      map (fun i => CalledEval i unlockScript ["r"%string] [ArgStr "t"])
          (seq 0 (length (clients node_redlock))) /\
    (forall i e, Emitted (unlockError i e) ∈ rollback <-> us.1 !! i = Some (Throw e)) /\
    acquire_loop node_redlock 3 "r" "t" 1000 0 0 s =
    if votes rs.1 >=? quorum node_redlock then
      Some (Throw expired,
            mkState us.2 (log s ++ sets ++ rollback ++ [Emitted (error expired)]))
    else
      acquire_loop node_redlock 2 "r" "t" 1000 0 (0 + 1)
        (mkState (setTimeout (retryDelay node_redlock) us.2)
                 (log s ++ sets ++ rollback ++
                  [Emitted (attemptFailed "r" "t" 0);
                   Slept (retryDelay node_redlock)])).
Proof.
  cbv zeta.
  assert (Hlt : 0 < retryCount node_redlock) by (vm_compute; reflexivity).
  assert (Hvotes : votes (fanout (set_step "r" "t" 1000) (clients node_redlock)
                                 (world (held_until 50))).1 < quorum node_redlock)
    by (vm_compute; reflexivity).
  split; [exact Hlt|]. split; [exact Hvotes|].
  apply (failed_attempt_rolls_back node_redlock 2 "r" "t" 1000 0 0 (held_until 50) Hlt).
  left. exact Hvotes.
Defined.

(** * Further properties of the coordinator *)

(** ** The quorum *)

(** X1: the quorum of the constructor is a strict majority of the stores:
    two sets of [quorum] stores among the [N] always share one, and for
    [N >= 1] the quorum does not exceed [N]. *)
Theorem quorum_is_a_strict_majority {World : Type} (cs : list (RedisClient World))
  (options : option RedlockOptions) :
  let N := Z.of_nat (length cs) in
  let q := quorum (new_Redlock cs options) in
  N < 2 * q <= N + 2 /\ 1 <= q <= Z.max N 1.
Proof.
  cbv zeta. simpl quorum. split; Z.div_mod_to_equations; lia.
Qed.

(** ** The trace of acquire *)

Lemma failed_attempts_app (l1 l2 : list Entry) :
  failed_attempts (l1 ++ l2) = failed_attempts l1 ++ failed_attempts l2.
Proof. apply omap_app. Qed.

Lemma sleeps_app (l1 l2 : list Entry) : sleeps (l1 ++ l2) = sleeps l1 ++ sleeps l2.
Proof. apply omap_app. Qed.

Lemma set_tokens_app (i : nat) (l1 l2 : list Entry) :
  set_tokens i (l1 ++ l2) = set_tokens i l1 ++ set_tokens i l2.
Proof. apply omap_app. Qed.

Lemma omap_fan_log_nil {A B} (pick : Entry -> option B) (call : nat -> Entry)
  (ev : nat -> JsError -> Event) (rs : list (Completion A)) :
  (forall i, pick (call i) = None) ->
  (forall i e, pick (Emitted (ev i e)) = None) ->
  omap pick (fan_log call ev rs) = [].
Proof.
  intros Hcall Hev. unfold fan_log. rewrite omap_app.
  assert (Hcalls : forall l, omap pick (map call l) = []).
  { induction l as [|i l IH]; simpl; [done|]. by rewrite Hcall. }
  assert (Hrej : forall k, omap pick (rejections ev k rs) = []).
  { induction rs as [|[a|e] rs IH]; intros k; simpl; rewrite ?Hev; auto. }
  by rewrite Hcalls, Hrej.
Qed.

Lemma failed_attempts_lock_log (resource lockId : string) (ttl : Z)
  (rs : list (Completion SetReply)) :
  failed_attempts (lock_log resource lockId ttl rs) = [].
Proof. by apply omap_fan_log_nil. Qed.

Lemma failed_attempts_unlock_log (resource lockId : string) (rs : list (Completion Z)) :
  failed_attempts (unlock_log resource lockId rs) = [].
Proof. by apply omap_fan_log_nil. Qed.

Lemma sleeps_lock_log (resource lockId : string) (ttl : Z)
  (rs : list (Completion SetReply)) :
  sleeps (lock_log resource lockId ttl rs) = [].
Proof. by apply omap_fan_log_nil. Qed.

Lemma sleeps_unlock_log (resource lockId : string) (rs : list (Completion Z)) :
  sleeps (unlock_log resource lockId rs) = [].
Proof. by apply omap_fan_log_nil. Qed.

Lemma set_tokens_unlock_log (resource lockId : string) (rs : list (Completion Z))
  (i : nat) :
  set_tokens i (unlock_log resource lockId rs) = [].
Proof. by apply omap_fan_log_nil. Qed.

Lemma set_tokens_calls (resource lockId : string) (options : SetOptions) (i : nat) :
  forall n k,
    set_tokens i (map (fun j => CalledSet j resource lockId options) (seq k n)) =
    if bool_decide (k <= i < k + n)%nat then [lockId] else [].
Proof.
  induction n as [|n IH]; intros k; simpl.
  - rewrite bool_decide_eq_false_2 by lia. done.
  - change (set_tokens i (?x :: ?l)) with (set_tokens i [x] ++ set_tokens i l).
    rewrite IH. unfold set_tokens. simpl.
    repeat case_bool_decide; try done; lia.
Qed.

Lemma set_tokens_lock_log (resource lockId : string) (ttl : Z)
  (rs : list (Completion SetReply)) (i : nat) :
  set_tokens i (lock_log resource lockId ttl rs) =
  if bool_decide (i < length rs)%nat then [lockId] else [].
Proof.
  assert (Hrej : forall k, set_tokens i (rejections lockError k rs) = []).
  { induction rs as [|[a|e] rs IH]; intros k; simpl; auto. }
  unfold lock_log, fan_log.
  rewrite set_tokens_app, set_tokens_calls, Hrej, app_nil_r.
  repeat case_bool_decide; try done; lia.
Qed.

Create Rewrite HintDb trace.
#[local] Hint Rewrite failed_attempts_app sleeps_app set_tokens_app
  failed_attempts_lock_log failed_attempts_unlock_log
  sleeps_lock_log sleeps_unlock_log set_tokens_unlock_log
  set_tokens_lock_log @app_nil_r @app_nil_l : trace.

Section Trace.
Context {World : Type} `{Runtime World}.
Variable this : Redlock World.

Lemma attempt_retry_trace (resource lockId : string) (ttl startTime attempts : Z)
  (s s1 : State World) :
  attempt this resource lockId ttl startTime attempts s = (Return None, s1) ->
  exists ext,
    log s1 = log s ++ ext /\
    failed_attempts ext = [attempts] /\
    sleeps ext = [] /\
    forall i, set_tokens i ext =
              if bool_decide (i < length (clients this))%nat then [lockId] else [].
Proof.
  intros Hatt. apply attempt_retry_inv in Hatt as [_ ->]. simpl.
  eexists. split; [reflexivity|].
  autorewrite with trace. split; [done|]. split; [done|].
  intros i. autorewrite with trace. rewrite fanout_length. simpl.
  repeat case_bool_decide; try done; lia.
Qed.

Lemma next_attempt_trace (resource lockId : string) (ttl startTime : Z)
  (x y : Z * State World) :
  rtc (next_attempt this resource lockId ttl startTime) x y ->
  x.1 <= y.1 /\ (y.1 = x.1 \/ y.1 <= retryCount this) /\
  exists ext,
    log y.2 = log x.2 ++ ext /\
    failed_attempts ext = seqZ x.1 (y.1 - x.1) /\
    sleeps ext = replicate (Z.to_nat (y.1 - x.1)) (retryDelay this) /\
    forall i, set_tokens i ext =
              if bool_decide (i < length (clients this))%nat
              then replicate (Z.to_nat (y.1 - x.1)) lockId else [].
Proof.
  induction 1 as [x|x y z Hstep _ (Hle & Hbound & ext & Hlog & Hfail & Hsleep & Htok)].
  - split; [lia|]. split; [by left|]. exists [].
    rewrite app_nil_r, Z.sub_diag. split; [done|].
    split; [done|]. split; [done|]. intros i. by case_bool_decide.
  - destruct Hstep as [attempts s s1 s2 Hlt Hatt Hsl]. simpl in *.
    apply attempt_retry_trace in Hatt as (ext1 & Hlog1 & Hfail1 & Hsleep1 & Htok1).
    rewrite sleep_run in Hsl. injection Hsl as <-. simpl in Hlog.
    split; [lia|]. split; [right; lia|].
    exists (ext1 ++ [Slept (retryDelay this)] ++ ext).
    split; [by rewrite Hlog, Hlog1, <- !app_assoc|].
    replace (z.1 - attempts) with (Z.succ (z.1 - (attempts + 1))) by lia.
    rewrite Z2Nat.inj_succ by lia.
    autorewrite with trace. rewrite Hfail1, Hsleep1, Hfail, Hsleep. simpl.
    split.
    { rewrite (seqZ_cons attempts) by lia. do 2 f_equal; lia. }
    split; [done|].
    intros i. autorewrite with trace. rewrite Htok1.
    change (set_tokens i (Slept (retryDelay this) :: ext)) with (set_tokens i ext).
    rewrite Htok. by case_bool_decide.
Qed.

(** X2: the events of one acquire call.  The [attemptFailed] events carry
    the attempt numbers 0, 1, 2, ... in order; after every failed attempt,
    the last one included, the call waits [retryDelay]; it gives up with
    the max-retries error after exactly [retryCount] failed attempts, and
    no store receives more than [retryCount] conditional-sets. *)
Theorem acquire_trace_counts (fuel : nat) (resource : string) (ttl : Z)
  (s s' : State World) (c : Completion string) :
  acquire this fuel resource ttl s = Some (c, s') ->
  exists ext k,
    log s' = log s ++ ext /\
    0 <= k /\
    failed_attempts ext = seqZ 0 k /\
    sleeps ext = replicate (Z.to_nat k) (retryDelay this) /\
    (c = Throw exhausted -> k = Z.max 0 (retryCount this)) /\
    (c <> Throw exhausted -> k < retryCount this) /\
    forall i, (length (set_tokens i ext) <= Z.to_nat (retryCount this))%nat.
Proof.
  unfold acquire. rewrite acquire_prologue_run.
  set (lockId := toString_hex _). set (startTime := (Date_now _).1). set (s0 := mkState _ _).
  intros Hrun.
  apply acquire_loop_inv in Hrun as (k & sk & Hreach & Hcases).
  apply next_attempt_trace in Hreach as (Hle & Hbound & ext & Hlog & Hfail & Hsleep & Htok).
  simpl in *. rewrite Z.sub_0_r in *.
  destruct Hcases as [(Hk & -> & Hatt)|[(Hk & -> & Hatt)|(Hk & -> & ->)]].
  - apply attempt_success_inv in Hatt as (_ & _ & _ & ->). simpl.
    eexists _, k. rewrite Hlog, <- !app_assoc. split; [reflexivity|].
    autorewrite with trace. rewrite Hfail, Hsleep. simpl. autorewrite with trace.
    split; [done|]. split; [done|]. split; [done|]. split; [done|]. split; [done|].
    intros i. autorewrite with trace. rewrite Htok, ?length_app.
    repeat case_bool_decide; simpl; rewrite ?length_replicate; simpl; lia.
  - rewrite attempt_run in Hatt. cbv zeta in Hatt.
    destruct (votes _ >=? _); [destruct (_ >? 0)|]; try done.
    injection Hatt as <-. simpl.
    eexists _, k. rewrite Hlog, <- !app_assoc. split; [reflexivity|].
    autorewrite with trace. rewrite Hfail, Hsleep. simpl. autorewrite with trace.
    split; [done|]. split; [done|]. split; [done|]. split; [done|]. split; [done|].
    intros i. autorewrite with trace. rewrite Htok, ?length_app.
    repeat case_bool_decide; simpl; rewrite ?length_replicate; simpl; lia.
  - simpl. eexists _, k. rewrite Hlog, <- !app_assoc. split; [reflexivity|].
    autorewrite with trace. rewrite Hfail, Hsleep. simpl. autorewrite with trace.
    split; [done|]. split; [done|]. split; [done|]. split; [lia|]. split; [done|].
    intros i. autorewrite with trace. rewrite Htok, ?length_app.
    repeat case_bool_decide; simpl; rewrite ?length_replicate; simpl; lia.
Qed.

End Trace.

(** ** Edge cases of the retry loop *)

Section Edges.
Context {World : Type} `{Runtime World}.

(** X3: a negative [retryCount] is truthy, so the constructor keeps it,
    and the loop of [acquire] is never entered: the call throws the
    max-retries error at once; it sends nothing to any store and does not
    wait. *)
Theorem acquire_with_negative_retryCount (cs : list (RedisClient World))
  (n : Z) (d : option Z) (fuel : nat) (resource : string) (ttl : Z) (s : State World) :
  n < 0 ->
  let this := new_Redlock cs (Some {| option_retryCount := Some n; option_retryDelay := d |}) in
  retryCount this = n /\
  exists s',
    acquire this (S fuel) resource ttl s = Some (Throw exhausted, s') /\
    log s' = log s ++ [Emitted (error exhausted)].
Proof.
  intros Hn this.
  assert (Hrc : retryCount this = n).
  { simpl. unfold js_or. destruct (Z.eqb_spec n 0); [lia|done]. }
  split; [done|].
  unfold acquire. rewrite acquire_prologue_run. cbn [acquire_loop].
  rewrite Hrc. destruct (Z.ltb_spec 0 n); [lia|].
  eexists. split; [reflexivity|]. done.
Qed.

(** X4: a coordinator without stores never grants a lock: its quorum is 1,
    so every attempt fails and [acquire] throws the max-retries error,
    [extend] throws; [release] still returns. *)
Theorem no_stores_no_lock (options : option RedlockOptions)
  (resource lockId : string) (ttl : Z) (s : State World) :
  let this := new_Redlock (@nil (RedisClient World)) options in
  (exists s', acquire this (S (Z.to_nat (retryCount this))) resource ttl s
              = Some (Throw exhausted, s')) /\
  (exists s', extend this resource lockId ttl s = (Throw not_extended, s')) /\
  (exists s', release this resource lockId s = (Return tt, s')).
Proof.
  intros this. split; [|split].
  - unfold acquire. rewrite acquire_prologue_run.
    set (tok := toString_hex _). set (startTime := (Date_now _).1). set (s0 := mkState _ _).
    destruct (acquire_loop_total this resource tok ttl startTime
                (S (Z.to_nat (retryCount this))) 0 s0) as (c & s' & Hrun); [lia|].
    rewrite Hrun.
    apply acquire_loop_inv in Hrun
      as (k & sk & _ & [(_ & _ & Hatt)|[(_ & _ & Hatt)|(_ & -> & _)]]).
    + by rewrite attempt_run in Hatt.
    + by rewrite attempt_run in Hatt.
    + eauto.
  - rewrite extend_run. simpl. eauto.
  - unfold release, try_catch, bind at 1. rewrite unlockInstances_run. simpl. eauto.
Qed.

End Edges.

(** ** executeOnAllClients *)

Section Isolation.
Context {World : Type} `{Runtime World}.
Variable this : Redlock World.
Context {T : Type}.
Variable fn : nat -> RedisClient World -> Async World (Promise World T).











End Isolation.

(** The same on three node-redis stores of which the second is
    unreachable, for a callback that sends the check-then-delete and
    handles nothing: a new coordinator, which has no listener, rejects
    with the error of the store; once a listener for ['error'] is
    attached the call returns, with [null] for that store. *)
Example executeOnAllClients_on_a_closed_connection :
  let s := cluster_of [idle_server; down_server; idle_server] in
  let fn i client := call_eval i client unlockScript ["r"%string] [ArgStr "t"] in
  (exists s', executeOnAllClients node_redlock fn s
              = (Throw (Error "Connection is closed."), s')) /\
  (exists s', executeOnAllClients (on_error node_redlock) fn s
              = (Return [Some 0; None; Some 0], s') /\
              Emitted (error (Error "Connection is closed.")) ∈ log s').
Proof.
  cbv zeta. split.
  - eexists. by vm_compute.
  - eexists. split; [by vm_compute|].
    vm_compute. do 3 apply list_elem_of_further. apply list_elem_of_here.
Qed.

(** ** The token *)

Section Token.
Context {World : Type} `{Runtime World}.

(** X6: when [randomBytes(16)] yields 16 bytes, the token of
    [generateLockId] has 32 characters, all of them among 0-9 and a-f. *)
Theorem generateLockId_is_32_hex_digits (s s' : State World) (token : string) :
  length (randomBytes 16 (world s)).1 = 16%nat ->
  generateLockId s = (Return token, s') ->
  String.length token = 32%nat /\
  Forall (fun c => is_Some (unhex_digit c)) (list_ascii_of_string token).
Proof.
  intros Hlen. rewrite generateLockId_run. intros [= <- _].
  destruct (toString_hex_shape (randomBytes 16 (world s)).1) as [Hl Hhex].
  rewrite Hlen in Hl. done.
Qed.

(** X7: the token determines the bytes it was made of: two calls of
    [generateLockId] that give the same token drew the same bytes, so
    tokens collide only when the random source repeats itself. *)
Theorem equal_tokens_equal_draws (s1 s1' s2 s2' : State World) (token : string) :
  generateLockId s1 = (Return token, s1') ->
  generateLockId s2 = (Return token, s2') ->
  (randomBytes 16 (world s1)).1 = (randomBytes 16 (world s2)).1.
Proof.
  rewrite !generateLockId_run. intros [= <- _] [= Heq _].
  apply (f_equal from_hex) in Heq. rewrite !from_hex_toString_hex in Heq.
  by injection Heq.
Qed.

End Token.

(** ** The coordinator over the mocks of the unit tests *)

Section Mocks.
Variable Number_of_string : string -> JsNumber.

Lemma Mock_set_holds (now : Z) (key val : string) (options : SetOptions)
  (data : gmap string MockEntry) :
  Mock_set now key val options data =
  match mock_holds now key data with
  | Some _ => (null, data)
  | None =>
      (OK, <[key := {| entry_value := val;
                       entry_expiresAt :=
                         match px options with
                         | Some ms => if ms =? 0 then Infinity else Finite (now + ms)
                         | None => Infinity
                         end |}]> data)
  end.
Proof.
  unfold Mock_set, mock_holds. destruct (data !! key) as [e|]; [|done].
  by destruct (expires_after _ _).
Qed.

Lemma Mock_unlock_holds (now : Z) (key lockId : string) (data : gmap string MockEntry) :
  Mock_eval Number_of_string now unlockScript [key] [ArgStr lockId] data =
  if bool_decide (mock_holds now key data = Some lockId)
  then (1, delete key data) else (0, data).
Proof.
  unfold Mock_eval, mock_holds. simpl. destruct (data !! key) as [e|]; [|done].
  destruct (expires_after _ _); rewrite ?andb_false_r; [|done]. rewrite andb_true_r.
  repeat case_bool_decide; try done; congruence.
Qed.

Lemma Mock_extend_holds (now : Z) (key lockId : string) (ttl : Z)
  (data : gmap string MockEntry) :
  Mock_eval Number_of_string now extendScript [key] [ArgStr lockId; ArgNum ttl] data =
  if bool_decide (mock_holds now key data = Some lockId)
  then (1, <[key := {| entry_value := lockId; entry_expiresAt := Finite (now + ttl) |}]> data)
  else (0, data).
Proof.
  unfold Mock_eval, mock_holds. simpl. destruct (data !! key) as [e|]; [|done].
  destruct (expires_after _ _); rewrite ?andb_false_r; [|done]. rewrite andb_true_r.
  repeat case_bool_decide; try done; congruence.
Qed.

(** One fan-out over the mocks: every mock answers from its own map, at
    the same reading of the clock. *)
Lemma fanout_on_mocks {A} (run : Z -> gmap string MockEntry -> A * gmap string MockEntry)
  (step : RedisClient TestWorld -> TestWorld -> Completion A * TestWorld) :
  (forall i w, step (MockRedisClient Number_of_string i) w = on_mock i run w) ->
  forall (todo before : list (gmap string MockEntry)) (now : Z) (rnd : N),
    fanout step (MockRedisClient Number_of_string <$> seq (length before) (length todo))
           {| mock_data := before ++ todo; mock_clock := now; mock_entropy := rnd |} =
    (map (fun d => Return (run now d).1) todo,
     {| mock_data := before ++ map (fun d => (run now d).2) todo;
        mock_clock := now; mock_entropy := rnd |}).
Proof.
  intros Hstep. induction todo as [|d todo IH]; intros before now rnd; [done|].
  cbn [length seq fmap list_fmap fanout]. rewrite Hstep. unfold on_mock. cbn [mock_data mock_clock mock_entropy].
  rewrite list_lookup_middle by done.
  destruct (run now d) as [a d'] eqn:Hrun.
  rewrite insert_app_r_alt by done. rewrite Nat.sub_diag. simpl.
  specialize (IH (before ++ [d']) now rnd).
  rewrite length_app, Nat.add_1_r, <- app_assoc in IH. simpl in IH.
  rewrite IH. simpl. rewrite Hrun. simpl. by rewrite <- app_assoc.
Qed.

Lemma fanout_mock_clients {A} (run : Z -> gmap string MockEntry -> A * gmap string MockEntry)
  (step : RedisClient TestWorld -> TestWorld -> Completion A * TestWorld) (w : TestWorld) :
  (forall i w, step (MockRedisClient Number_of_string i) w = on_mock i run w) ->
  fanout step (mock_clients Number_of_string w) w =
  (map (fun d => Return (run (mock_clock w) d).1) (mock_data w),
   {| mock_data := map (fun d => (run (mock_clock w) d).2) (mock_data w);
      mock_clock := mock_clock w; mock_entropy := mock_entropy w |}).
Proof.
  intros Hstep. destruct w as [data now rnd]. unfold mock_clients. simpl.
  apply (fanout_on_mocks run step Hstep data [] now rnd).
Qed.


(** The three fan-outs of the coordinator over the mocks. *)
Lemma lock_fanout_on_mocks (resource lockId : string) (ttl : Z) (w : TestWorld) :
  fanout (set_step resource lockId ttl) (mock_clients Number_of_string w) w =
  (map (fun d => Return (Mock_set (mock_clock w) resource lockId
                           {| nx := None; px := Some ttl |} d).1) (mock_data w),
   {| mock_data := map (fun d => (Mock_set (mock_clock w) resource lockId
                                    {| nx := None; px := Some ttl |} d).2) (mock_data w);
      mock_clock := mock_clock w; mock_entropy := mock_entropy w |}).
Proof.
  by apply (fanout_mock_clients
              (fun now => Mock_set now resource lockId {| nx := None; px := Some ttl |})).
Qed.

Lemma unlock_fanout_on_mocks (resource lockId : string) (w : TestWorld) :
  fanout (unlock_step resource lockId) (mock_clients Number_of_string w) w =
  (map (fun d => Return (if bool_decide (mock_holds (mock_clock w) resource d = Some lockId)
                         then 1 else 0)) (mock_data w),
   {| mock_data := map (fun d => if bool_decide (mock_holds (mock_clock w) resource d
                                                 = Some lockId)
                                 then delete resource d else d) (mock_data w);
      mock_clock := mock_clock w; mock_entropy := mock_entropy w |}).
Proof.
  rewrite (fanout_mock_clients
             (fun now => Mock_eval Number_of_string now unlockScript [resource]
                           [ArgStr lockId])) by done.
  f_equal; [|f_equal]; apply map_ext; intros d; rewrite Mock_unlock_holds;
    by case_bool_decide.
Qed.

Lemma extend_fanout_on_mocks (resource lockId : string) (ttl : Z) (w : TestWorld) :
  fanout (extend_step resource lockId ttl) (mock_clients Number_of_string w) w =
  (map (fun d => Return (if bool_decide (mock_holds (mock_clock w) resource d = Some lockId)
                         then 1 else 0)) (mock_data w),
   {| mock_data :=
        map (fun d => if bool_decide (mock_holds (mock_clock w) resource d = Some lockId)
                      then <[resource := {| entry_value := lockId;
                                            entry_expiresAt := Finite (mock_clock w + ttl) |}]> d
                      else d) (mock_data w);
      mock_clock := mock_clock w; mock_entropy := mock_entropy w |}).
Proof.
  rewrite (fanout_mock_clients
             (fun now => Mock_eval Number_of_string now extendScript [resource]
                           [ArgStr lockId; ArgNum ttl])) by done.
  f_equal; [|f_equal]; apply map_ext; intros d; rewrite Mock_extend_holds;
    by case_bool_decide.
Qed.

Lemma release_mocks_run (options : option RedlockOptions) (resource lockId : string)
  (w : TestWorld) (l : list Entry) :
  let this := new_Redlock (mock_clients Number_of_string w) options in
  release this resource lockId (mkState w l) =
  (Return tt,
   mkState
     {| mock_data :=
          map (fun d => if bool_decide (mock_holds (mock_clock w) resource d = Some lockId)
                        then delete resource d else d) (mock_data w);
        mock_clock := mock_clock w; mock_entropy := mock_entropy w |}
     (l ++ map (fun i => CalledEval i unlockScript [resource] [ArgStr lockId])
               (seq 0 (length (mock_data w)))
        ++ [Emitted (lockReleased resource lockId)])).
Proof.
  cbv zeta. unfold release, try_catch, bind at 1. rewrite unlockInstances_run.
  cbn [clients new_Redlock world log]. rewrite unlock_fanout_on_mocks. simpl.
  unfold unlock_log.
  rewrite fan_log_returned.
  by rewrite <- app_assoc.
Qed.

(** Among the mocks, those that hold the resource under the token. *)
Lemma renewals_on_mocks (now : Z) (resource lockId : string)
  (data : list (gmap string MockEntry)) :
  renewals (map (fun d => Return (if bool_decide (mock_holds now resource d = Some lockId)
                                  then 1 else 0)) data)
  = Z.of_nat (length (List.filter
                        (fun d => bool_decide (mock_holds now resource d = Some lockId))
                        data)).
Proof.
  unfold renewals. do 2 f_equal.
  induction data as [|d data IH]; simpl; [done|].
  case_bool_decide; simpl; by rewrite IH.
Qed.

Lemma extend_mocks_run (options : option RedlockOptions) (resource lockId : string)
  (ttl : Z) (w : TestWorld) (l : list Entry) :
  let this := new_Redlock (mock_clients Number_of_string w) options in
  let holders :=
    List.filter (fun d => bool_decide (mock_holds (mock_clock w) resource d = Some lockId))
                (mock_data w) in
  let renewed :=
    {| mock_data :=
         map (fun d => if bool_decide (mock_holds (mock_clock w) resource d = Some lockId)
                       then <[resource := {| entry_value := lockId;
                                             entry_expiresAt := Finite (mock_clock w + ttl) |}]> d
                       else d) (mock_data w);
       mock_clock := mock_clock w; mock_entropy := mock_entropy w |} in
  let calls :=
    map (fun i => CalledEval i extendScript [resource] [ArgStr lockId; ArgNum ttl])
        (seq 0 (length (mock_data w))) in
  extend this resource lockId ttl (mkState w l) =
  if Z.of_nat (length holders) >=? quorum this
  then (Return tt, mkState renewed (l ++ calls ++ [Emitted (lockExtended resource lockId ttl)]))
  else (Throw not_extended, mkState renewed (l ++ calls ++ [Emitted (error not_extended)])).
Proof.
  cbv zeta. rewrite extend_run. cbv zeta.
  cbn [clients new_Redlock world log]. rewrite extend_fanout_on_mocks. simpl.
  rewrite renewals_on_mocks. unfold extend_log.
  rewrite fan_log_returned.
  rewrite <- !app_assoc. done.
Qed.


Lemma votes_on_mocks (now : Z) (resource lockId : string) (options : SetOptions)
  (data : list (gmap string MockEntry)) :
  votes (map (fun d => Return (Mock_set now resource lockId options d).1) data)
  = Z.of_nat (length (List.filter
                        (fun d => bool_decide (mock_holds now resource d = None)) data)).
Proof.
  unfold votes. do 2 f_equal.
  induction data as [|d data IH]; simpl; [done|].
  rewrite Mock_set_holds.
  destruct (mock_holds now resource d); simpl; by rewrite IH.
Qed.

Lemma lock_on_free_mocks (now : Z) (resource lockId : string) (options : SetOptions)
  (data : list (gmap string MockEntry)) :
  Forall (fun d => mock_holds now resource d = None) data ->
  length (List.filter (fun d => bool_decide (mock_holds now resource d = None)) data)
  = length data /\
  map (fun d => (Mock_set now resource lockId options d).2) data
  = map (fun d => <[resource := {| entry_value := lockId;
                                   entry_expiresAt :=
                                     match px options with
                                     | Some ms => if ms =? 0 then Infinity
                                                  else Finite (now + ms)
                                     | None => Infinity
                                     end |}]> d) data.
Proof.
  induction 1 as [|d data Hd _ [IHlen IHmap]]; [done|]. simpl.
  rewrite Mock_set_holds, Hd, bool_decide_eq_true_2 by done. simpl.
  by rewrite IHlen, IHmap.
Qed.

Lemma mock_clients_same (w1 w2 : TestWorld) :
  length (mock_data w1) = length (mock_data w2) ->
  mock_clients Number_of_string w1 = mock_clients Number_of_string w2.
Proof. unfold mock_clients. by intros ->. Qed.

(** [acquire] on mocks where the resource is free. *)
Lemma acquire_free_run (options : option RedlockOptions) (resource : string) (ttl : Z)
  (w : TestWorld) (l : list Entry) (fuel : nat) :
  let this := new_Redlock (mock_clients Number_of_string w) options in
  let token := toString_hex (randomBytes 16 w).1 in
  mock_data w <> [] ->
  Forall (fun d => mock_holds (mock_clock w) resource d = None) (mock_data w) ->
  0 < retryCount this ->
  3 <= ttl ->
  acquire this (S fuel) resource ttl (mkState w l) =
  Some (Return token,
        mkState
          {| mock_data :=
               map (fun d => <[resource := {| entry_value := token;
                                              entry_expiresAt := Finite (mock_clock w + ttl) |}]> d)
                   (mock_data w);
             mock_clock := mock_clock w; mock_entropy := N.succ (mock_entropy w) |}
          (l ++ map (fun i => CalledSet i resource token {| nx := None; px := Some ttl |})
                    (seq 0 (length (mock_data w)))
             ++ [Emitted (lockAcquired resource token (ttl - drift this ttl))])).
Proof.
  intros this token Hne Hfree Hrc Httl. subst token.
  unfold acquire. rewrite acquire_prologue_run. cbn [world log].
  set (token := toString_hex (randomBytes 16 w).1).
  cbn [acquire_loop]. apply Z.ltb_lt in Hrc as ->.
  rewrite attempt_run. cbv zeta. cbn [world log clients this new_Redlock].
  set (w1 := (Date_now (randomBytes 16 w).2).2).
  rewrite (mock_clients_same w w1) by done.
  rewrite lock_fanout_on_mocks. cbn [fst snd].
  rewrite votes_on_mocks.
  destruct (lock_on_free_mocks (mock_clock w1) resource token
              {| nx := None; px := Some ttl |} (mock_data w1)) as [Hlen Hmap]; [done|].
  rewrite Hlen, Hmap. cbn [px].
  assert (Hq : (Z.of_nat (length (mock_data w1)) >=? Z.of_nat (length
                 (mock_clients Number_of_string w)) / 2 + 1) = true).
  { apply Z.geb_le. unfold mock_clients. rewrite length_fmap, length_seq.
    change (mock_data w1) with (mock_data w).
    destruct (mock_data w); [done|]. simpl length. Z.div_mod_to_equations. lia. }
  simpl quorum. rewrite Hq.
  change (Date_now _).1 with (mock_clock w). simpl Date_now. cbn [fst snd].
  rewrite Z.sub_diag, Z.sub_0_r.
  assert (Hv : (ttl - drift this ttl >? 0) = true).
  { apply Z.gtb_lt. unfold drift. simpl clockDriftFactor. rewrite Qfloor_hundredth.
    Z.div_mod_to_equations. lia. }
  fold this. rewrite Hv.
  destruct (Z.eqb_spec ttl 0); [lia|].
  unfold lock_log.
  rewrite fan_log_returned.
  by rewrite <- app_assoc.
Qed.


(** X8: [release] over the mocks, in full: it returns, reports no store
    error, deletes the resource on exactly the mocks that hold it, not yet
    expired, under the given token, and leaves every other map as it
    was. *)
Theorem release_on_mocks (options : option RedlockOptions) (resource lockId : string)
  (w : TestWorld) (l : list Entry) :
  let this := new_Redlock (mock_clients Number_of_string w) options in
  release this resource lockId (mkState w l) =
  (Return tt,
   mkState
     {| mock_data :=
          map (fun d => if bool_decide (mock_holds (mock_clock w) resource d = Some lockId)
                        then delete resource d else d) (mock_data w);
        mock_clock := mock_clock w; mock_entropy := mock_entropy w |}
     (l ++ map (fun i => CalledEval i unlockScript [resource] [ArgStr lockId])
               (seq 0 (length (mock_data w)))
        ++ [Emitted (lockReleased resource lockId)])).
Proof. apply release_mocks_run. Qed.

(** X10: on mocks where the resource is free (absent or expired), with at
    least one mock, a positive [retryCount] and [ttl >= 3], [acquire]
    succeeds at its first attempt: every mock then holds the resource
    under the token until [now + ttl], and the validity time reported is
    [ttl - drift], the mocks answering without delay. *)
Theorem acquire_on_free_mocks (options : option RedlockOptions) (resource : string) (ttl : Z)
  (w : TestWorld) (l : list Entry) (fuel : nat) :
  let this := new_Redlock (mock_clients Number_of_string w) options in
  let token := toString_hex (randomBytes 16 w).1 in
  mock_data w <> [] ->
  Forall (fun d => mock_holds (mock_clock w) resource d = None) (mock_data w) ->
  0 < retryCount this ->
  3 <= ttl ->
  acquire this (S fuel) resource ttl (mkState w l) =
  Some (Return token,
        mkState
          {| mock_data :=
               map (fun d => <[resource := {| entry_value := token;
                                              entry_expiresAt := Finite (mock_clock w + ttl) |}]> d)
                   (mock_data w);
             mock_clock := mock_clock w; mock_entropy := N.succ (mock_entropy w) |}
          (l ++ map (fun i => CalledSet i resource token {| nx := None; px := Some ttl |})
                    (seq 0 (length (mock_data w)))
             ++ [Emitted (lockAcquired resource token (ttl - drift this ttl))])).
Proof. apply acquire_free_run. Qed.

Lemma release_after_set (now : Z) (resource token : string) (ttl : Z)
  (data : list (gmap string MockEntry)) :
  0 < ttl ->
  map (fun d => if bool_decide (mock_holds now resource d = Some token)
                then delete resource d else d)
      (map (fun d => <[resource := {| entry_value := token;
                                      entry_expiresAt := Finite (now + ttl) |}]> d) data)
  = map (delete resource) data.
Proof.
  intros Httl. rewrite map_map. apply map_ext. intros d.
  unfold mock_holds. rewrite lookup_insert_eq. simpl.
  destruct (Z.gtb_spec (now + ttl) now); [|lia].
  rewrite bool_decide_eq_true_2 by done. apply delete_insert_eq.
Qed.

(** X11: acquire, release, acquire.  Under the conditions of X10,
    [release] with the token that [acquire] returned removes the resource
    from every mock (the other keys are as before), and a second
    [acquire] then succeeds again. *)
Theorem acquire_release_acquire_on_mocks (options : option RedlockOptions)
  (resource : string) (ttl : Z) (w : TestWorld) (l : list Entry) (fuel : nat) :
  let this := new_Redlock (mock_clients Number_of_string w) options in
  mock_data w <> [] ->
  Forall (fun d => mock_holds (mock_clock w) resource d = None) (mock_data w) ->
  0 < retryCount this ->
  3 <= ttl ->
  exists token s1 s2 token' s3,
    acquire this (S fuel) resource ttl (mkState w l) = Some (Return token, s1) /\
    release this resource token s1 = (Return tt, s2) /\
    mock_data (world s2) = map (delete resource) (mock_data w) /\
    acquire this (S fuel) resource ttl s2 = Some (Return token', s3).
Proof.
  intros this Hne Hfree Hrc Httl.
  eexists _, _, _, _, _.
  split; [by apply acquire_free_run|].
  set (w1 := {| mock_data := map _ (mock_data w) |}).
  assert (Hthis1 : this = new_Redlock (mock_clients Number_of_string w1) options).
  { unfold this. f_equal. apply mock_clients_same. subst w1. simpl. by rewrite length_map. }
  split.
  { rewrite Hthis1. apply release_mocks_run. }
  simpl. subst w1. cbn [mock_data mock_clock mock_entropy].
  rewrite length_map, release_after_set by lia.
  split; [done|].
  set (w2 := {| mock_data := map (delete resource) (mock_data w) |}).
  assert (Hthis2 : this = new_Redlock (mock_clients Number_of_string w2) options).
  { unfold this. f_equal. apply mock_clients_same. subst w2. simpl. by rewrite length_map. }
  rewrite Hthis2. apply acquire_free_run.
  - subst w2. simpl. by destruct (mock_data w).
  - subst w2. simpl. apply Forall_map. apply Forall_forall. intros d _. simpl.
    unfold mock_holds. by rewrite lookup_delete_eq.
  - by rewrite <- Hthis2.
  - done.
Qed.

End Mocks.

Section Exclusion.
Variable Number_of_string : string -> JsNumber.

Lemma expires_after_earlier (x : JsNumber) (t T : Z) :
  t <= T -> expires_after x T = true -> expires_after x t = true.
Proof. destruct x; simpl; try done. intros Ht HT. apply Z.gtb_lt. apply Z.gtb_lt in HT. lia. Qed.

Lemma held_by_other_holds (t T : Z) (resource token : string) (d : gmap string MockEntry) :
  t <= T -> held_by_other T resource token d = true ->
  exists v, mock_holds t resource d = Some v /\ v <> token.
Proof.
  unfold held_by_other, mock_holds. intros Ht. destruct (d !! resource) as [e|]; [|done].
  intros [Hexp Hval]%andb_true_iff.
  rewrite (expires_after_earlier _ t T) by done.
  exists (entry_value e). split; [done|].
  apply negb_true_iff, String.eqb_neq in Hval. done.
Qed.

(** An attempt leaves alone the mocks that another token holds. *)
Lemma attempt_keeps_holders (t T : Z) (resource token : string) (ttl : Z)
  (d : gmap string MockEntry) :
  t <= T -> held_by_other T resource token d = true ->
  (Mock_set t resource token {| nx := None; px := Some ttl |} d) = (null, d) /\
  (if bool_decide (mock_holds t resource d = Some token) then delete resource d else d) = d.
Proof.
  intros Ht Hheld.
  destruct (held_by_other_holds t T resource token d Ht Hheld) as (v & Hv & Hne).
  rewrite Mock_set_holds, Hv. split; [done|].
  rewrite bool_decide_eq_false_2; [done|congruence].
Qed.

Lemma free_mocks_bound (t T : Z) (resource token : string)
  (data0 data : list (gmap string MockEntry)) :
  t <= T ->
  Forall2 (fun d0 d => held_by_other T resource token d0 = true -> d = d0) data0 data ->
  (length (List.filter (fun d => bool_decide (mock_holds t resource d = None)) data)
   + length (List.filter (held_by_other T resource token) data0) <= length data0)%nat.
Proof.
  intros Ht. induction 1 as [|d0 d data0 data Hd _ IH]; simpl; [lia|].
  destruct (held_by_other T resource token d0) eqn:Hheld.
  - rewrite Hd by done.
    destruct (held_by_other_holds t T resource token d0 Ht Hheld) as (v & Hv & _).
    rewrite Hv. simpl. lia.
  - case_bool_decide; simpl; lia.
Qed.

Section Loop.
Variable this : Redlock TestWorld.
Variables (resource token : string) (ttl startTime T : Z).
Variable data0 : list (gmap string MockEntry).

Hypothesis this_clients :
  clients this = MockRedisClient Number_of_string <$> seq 0 (length data0).
Hypothesis too_few_free :
  Z.of_nat (length data0)
  - Z.of_nat (length (List.filter (held_by_other T resource token) data0))
  < quorum this.

Lemma acquire_loop_while_held :
  forall (fuel : nat) (attempts : Z) (w : TestWorld) (l : list Entry),
    (Z.to_nat (retryCount this - attempts) < fuel)%nat ->
    mock_clock w + (retryCount this - attempts) * Z.max (retryDelay this) 1 <= T ->
    Forall2 (fun d0 d => held_by_other T resource token d0 = true -> d = d0)
            data0 (mock_data w) ->
    exists s',
      acquire_loop this fuel resource token ttl startTime attempts (mkState w l)
      = Some (Throw exhausted, s') /\
      Forall2 (fun d0 d => held_by_other T resource token d0 = true -> d = d0)
              data0 (mock_data (world s')).
Proof.
  induction fuel as [|fuel IH]; intros attempts w l Hfuel Htime Hinv; [lia|].
  cbn [acquire_loop]. destruct (Z.ltb_spec attempts (retryCount this)) as [Hlt|Hge].
  - pose proof (Z.le_max_r (retryDelay this) 1) as HD.
    assert (Hnow : mock_clock w <= T).
    { assert (0 <= (retryCount this - attempts) * Z.max (retryDelay this) 1)
        by (apply Z.mul_nonneg_nonneg; lia).
      lia. }
    assert (Hcs : clients this = mock_clients Number_of_string w).
    { rewrite this_clients. unfold mock_clients. by rewrite (Forall2_length _ _ _ Hinv). }
    rewrite attempt_run. cbv zeta. cbn [world log]. rewrite Hcs.
    rewrite lock_fanout_on_mocks. cbn [fst snd]. rewrite votes_on_mocks.
    pose proof (free_mocks_bound (mock_clock w) T resource token data0 (mock_data w)
                  Hnow Hinv) as Hbound.
    destruct (Z.geb_spec (Z.of_nat (length (List.filter
                (fun d => bool_decide (mock_holds (mock_clock w) resource d = None))
                (mock_data w)))) (quorum this)) as [Hq|Hq]; [lia|].
    set (w1 := {| mock_data := map _ (mock_data w) |}).
    rewrite (mock_clients_same Number_of_string w w1)
      by (subst w1; simpl; by rewrite length_map).
    rewrite unlock_fanout_on_mocks. cbn [fst snd]. rewrite sleep_run. cbn [world log].
    apply IH; [lia| |].
    + subst w1. simpl.
      replace (retryCount this - (attempts + 1)) with (retryCount this - attempts - 1) by lia.
      rewrite Z.mul_sub_distr_r. lia.
    + subst w1. simpl. rewrite map_map.
      clear -Hinv Hnow. induction Hinv as [|d0 d data0' data Hd _ IHinv]; simpl;
        constructor; [|done].
      intros Hheld. rewrite Hd by done.
      destruct (attempt_keeps_holders (mock_clock w) T resource token ttl d0 Hnow Hheld)
        as [Hset Hdel].
      rewrite Hset. simpl. exact Hdel.
  - rewrite emit_error_then_throw. eexists. split; [reflexivity|]. done.
Qed.

End Loop.

(** X12: mutual exclusion over the mocks.  While so many mocks hold the
    resource under other tokens, with an expiry beyond the whole span of
    the retries, that the remaining mocks are fewer than [quorum],
    [acquire] throws the max-retries error, and the maps of the holding
    mocks are exactly as before. *)
Theorem acquire_fails_while_held_on_mocks (options : option RedlockOptions)
  (resource : string) (ttl : Z) (w : TestWorld) (l : list Entry) :
  let this := new_Redlock (mock_clients Number_of_string w) options in
  let token := toString_hex (randomBytes 16 w).1 in
  let T := mock_clock w + retryCount this * Z.max (retryDelay this) 1 in
  let holders := List.filter (held_by_other T resource token) (mock_data w) in
  Z.of_nat (length (mock_data w)) - Z.of_nat (length holders) < quorum this ->
  exists s',
    acquire this (S (Z.to_nat (retryCount this))) resource ttl (mkState w l)
    = Some (Throw exhausted, s') /\
    Forall2 (fun d0 d => held_by_other T resource token d0 = true -> d = d0)
            (mock_data w) (mock_data (world s')).
Proof.
  intros this token T holders Hfew.
  unfold acquire. rewrite acquire_prologue_run. cbn [world log].
  apply (acquire_loop_while_held this resource token ttl _ T (mock_data w)).
  - done.
  - exact Hfew.
  - lia.
  - subst T. rewrite Z.sub_0_r. apply Z.le_refl.
  - simpl. apply Forall2_same_length_lookup_2; [done|]. naive_solver.
Qed.

End Exclusion.

Section MockLifetime.
Variable Number_of_string : string -> JsNumber.

(** X13: a lock on the mocks lasts exactly [ttl]: after the [acquire] of
    X10, at every time before [now + ttl] every mock holds the resource
    under the token, and from [now + ttl] on no mock holds it. *)
Theorem lock_on_mocks_lapses_with_ttl (options : option RedlockOptions) (resource : string)
  (ttl : Z) (w : TestWorld) (l : list Entry) (fuel : nat) :
  let this := new_Redlock (mock_clients Number_of_string w) options in
  mock_data w <> [] ->
  Forall (fun d => mock_holds (mock_clock w) resource d = None) (mock_data w) ->
  0 < retryCount this ->
  3 <= ttl ->
  exists token s1,
    acquire this (S fuel) resource ttl (mkState w l) = Some (Return token, s1) /\
    forall t,
      Forall (fun d => mock_holds t resource d =
                       if bool_decide (t < mock_clock w + ttl) then Some token else None)
             (mock_data (world s1)).
Proof.
  intros this Hne Hfree Hrc Httl.
  eexists _, _. split; [by apply acquire_free_run|].
  intros t. simpl. apply Forall_map, Forall_forall. intros d _. simpl.
  unfold mock_holds. rewrite lookup_insert_eq. simpl.
  destruct (Z.gtb_spec (mock_clock w + ttl) t); case_bool_decide; try done; lia.
Qed.

(** X14: a [ttl] of 0, 1 or 2 ms can never be acquired.  On free mocks
    the first attempt reaches quorum, but the validity time [ttl - 2] is
    not positive: [acquire] rolls back, throws the validity error without
    a retry, and the resource is absent from every mock, also for
    [ttl = 0], where the entries were written without expiry. *)
Theorem acquire_with_tiny_ttl_on_mocks (options : option RedlockOptions) (resource : string)
  (ttl : Z) (w : TestWorld) (l : list Entry) (fuel : nat) :
  let this := new_Redlock (mock_clients Number_of_string w) options in
  let token := toString_hex (randomBytes 16 w).1 in
  mock_data w <> [] ->
  Forall (fun d => mock_holds (mock_clock w) resource d = None) (mock_data w) ->
  0 < retryCount this ->
  0 <= ttl <= 2 ->
  acquire this (S fuel) resource ttl (mkState w l) =
  Some (Throw expired,
        mkState
          {| mock_data := map (delete resource) (mock_data w);
             mock_clock := mock_clock w; mock_entropy := N.succ (mock_entropy w) |}
          (l ++ map (fun i => CalledSet i resource token {| nx := None; px := Some ttl |})
                    (seq 0 (length (mock_data w)))
             ++ map (fun i => CalledEval i unlockScript [resource] [ArgStr token])
                    (seq 0 (length (mock_data w)))
             ++ [Emitted (error expired)])).
Proof.
  intros this token Hne Hfree Hrc Httl. subst token.
  unfold acquire. rewrite acquire_prologue_run. cbn [world log].
  set (token := toString_hex (randomBytes 16 w).1).
  cbn [acquire_loop]. apply Z.ltb_lt in Hrc as ->.
  rewrite attempt_run. cbv zeta. cbn [world log clients this new_Redlock].
  set (w1 := (Date_now (randomBytes 16 w).2).2).
  rewrite (mock_clients_same Number_of_string w w1) by done.
  rewrite lock_fanout_on_mocks. cbn [fst snd].
  rewrite votes_on_mocks.
  destruct (lock_on_free_mocks (mock_clock w1) resource token
              {| nx := None; px := Some ttl |} (mock_data w1)) as [Hlen Hmap]; [done|].
  rewrite Hlen, Hmap. cbn [px].
  assert (Hq : (Z.of_nat (length (mock_data w1)) >=? Z.of_nat (length
                 (mock_clients Number_of_string w)) / 2 + 1) = true).
  { apply Z.geb_le. unfold mock_clients. rewrite length_fmap, length_seq.
    change (mock_data w1) with (mock_data w).
    destruct (mock_data w); [done|]. simpl length. Z.div_mod_to_equations. lia. }
  simpl quorum. rewrite Hq.
  change (Date_now _).1 with (mock_clock w). simpl Date_now. cbn [fst snd].
  rewrite Z.sub_diag, Z.sub_0_r.
  assert (Hv : (ttl - drift this ttl >? 0) = false).
  { destruct (Z.gtb_spec (ttl - drift this ttl) 0) as [Hgt|]; [|done].
    unfold drift in Hgt. simpl clockDriftFactor in Hgt. rewrite Qfloor_hundredth in Hgt.
    revert Hgt. Z.div_mod_to_equations. lia. }
  fold this. rewrite Hv.
  cbn [Date_now TestWorld_Runtime fst snd].
  set (w2 := {| mock_data := map _ (mock_data w) |}).
  rewrite (mock_clients_same Number_of_string w1 w2)
    by (subst w2; simpl; by rewrite length_map).
  rewrite unlock_fanout_on_mocks. cbn [fst snd].
  unfold lock_log, unlock_log. rewrite !fan_log_returned.
  subst w2. cbn [mock_data mock_clock mock_entropy]. rewrite length_map, map_map.
  rewrite <- !app_assoc. do 3 f_equal. f_equal.
  apply map_ext. intros d. unfold mock_holds. rewrite lookup_insert_eq. simpl.
  assert (Hlive : expires_after (if ttl =? 0 then Infinity else Finite (mock_clock w + ttl))
                                (mock_clock w) = true).
  { destruct (Z.eqb_spec ttl 0); [done|]. simpl. apply Z.gtb_lt. lia. }
  rewrite Hlive, bool_decide_eq_true_2 by done. apply delete_insert_eq.
Qed.

End MockLifetime.

(** ** The adapters over a Redis server *)

Lemma NodeRedisAdapter_setOptions_has_NX (options : SetOptions) :
  has_NX (NodeRedisAdapter_setOptions options) = true.
Proof.
  unfold NodeRedisAdapter_setOptions. destruct (px options) as [ms|]; [|done].
  by destruct (ms =? 0).
Qed.

Lemma IORedisAdapter_args_has_NX (options : SetOptions) :
  has_NX (IORedisAdapter_args options) = truthy_flag (nx options).
Proof.
  unfold IORedisAdapter_args.
  destruct (truthy_flag (nx options)), (px options) as [ms|]; simpl; try done;
    by destruct (ms =? 0).
Qed.

(** X15: adapters/NodeRedisAdapter.ts, [set]: whatever options the caller
    passes, a key that a reachable server holds, not yet expired, is
    answered [null] and the data of the server stay as they are. *)
Theorem NodeRedisAdapter_set_never_overwrites (w : Cluster) (i : nat) (srv : Server)
  (key val : string) (options : SetOptions) :
  servers w !! i = Some srv ->
  reachable srv = true ->
  is_Some (GET (clock w + latency srv) key (data srv)) ->
  exists w',
    client_set (NodeRedisAdapter i) key val options w = (Return null, w') /\
    data <$> servers w' !! i = Some (data srv) /\
    forall j, j <> i -> servers w' !! j = servers w !! j.
Proof.
  intros Hsrv Hup Hlive. simpl. unfold command. rewrite Hsrv, Hup.
  rewrite SET_NX_keeps_live_entry by (done || apply NodeRedisAdapter_setOptions_has_NX).
  eexists. split; [reflexivity|]. simpl. split.
  - rewrite list_lookup_insert_eq by (by eapply lookup_lt_Some). done.
  - intros j Hj. by rewrite list_lookup_insert_ne.
Qed.

(** X16: adapters/IORedisAdapter.ts, [set]: on a key that a reachable
    server holds, the answer is [null] exactly when the caller passed a
    truthy [nx]; without it the answer is OK and the entry is replaced by
    the new value. *)
Theorem IORedisAdapter_set_is_conditional_iff_nx (w : Cluster) (i : nat) (srv : Server)
  (key val : string) (options : SetOptions) :
  servers w !! i = Some srv ->
  reachable srv = true ->
  is_Some (GET (clock w + latency srv) key (data srv)) ->
  exists w' srv',
    client_set (IORedisAdapter i) key val options w =
      (Return (if truthy_flag (nx options) then null else OK), w') /\
    servers w' !! i = Some srv' /\
    value <$> data srv' !! key =
      if truthy_flag (nx options) then value <$> data srv !! key else Some val.
Proof.
  intros Hsrv Hup Hlive. simpl. unfold command. rewrite Hsrv, Hup.
  pose proof (IORedisAdapter_args_has_NX options) as HNX.
  destruct (truthy_flag (nx options)).
  - rewrite SET_NX_keeps_live_entry by done.
    eexists _, _. split; [reflexivity|]. simpl.
    rewrite list_lookup_insert_eq by (by eapply lookup_lt_Some). done.
  - rewrite SET_without_NX_overwrites by done.
    eexists _, _. split; [reflexivity|]. simpl.
    rewrite list_lookup_insert_eq by (by eapply lookup_lt_Some).
    split; [done|]. simpl. by rewrite lookup_insert_eq.
Qed.

Section MockExtend.
Variable Number_of_string : string -> JsNumber.

(** X9: [extend] over the mocks, in full: every mock that holds the
    resource under the token gets the expiry [now + ttl], the others are
    left alone; the call returns if those mocks are at least [quorum] and
    throws otherwise, and the renewals it made stay in place when it
    throws. *)
Theorem extend_on_mocks (options : option RedlockOptions) (resource lockId : string)
  (ttl : Z) (w : TestWorld) (l : list Entry) :
  let this := new_Redlock (mock_clients Number_of_string w) options in
  let holders :=
    List.filter (fun d => bool_decide (mock_holds (mock_clock w) resource d = Some lockId))
                (mock_data w) in
  let renewed :=
    {| mock_data :=
         map (fun d => if bool_decide (mock_holds (mock_clock w) resource d = Some lockId)
                       then <[resource := {| entry_value := lockId;
                                             entry_expiresAt := Finite (mock_clock w + ttl) |}]> d
                       else d) (mock_data w);
       mock_clock := mock_clock w; mock_entropy := mock_entropy w |} in
  let calls :=
    map (fun i => CalledEval i extendScript [resource] [ArgStr lockId; ArgNum ttl])
        (seq 0 (length (mock_data w))) in
  extend this resource lockId ttl (mkState w l) =
  if Z.of_nat (length holders) >=? quorum this
  then (Return tt, mkState renewed (l ++ calls ++ [Emitted (lockExtended resource lockId ttl)]))
  else (Throw not_extended, mkState renewed (l ++ calls ++ [Emitted (error not_extended)])).
Proof. apply extend_mocks_run. Qed.

Lemma List_filter_all {A} (f : A -> bool) (xs : list A) :
  Forall (fun x => f x = true) xs -> List.filter f xs = xs.
Proof. induction 1 as [|x xs Hx _ IH]; simpl; [done|]. by rewrite Hx, IH. Qed.

Lemma List_filter_none {A} (f : A -> bool) (xs : list A) :
  Forall (fun x => f x = false) xs -> List.filter f xs = [].
Proof. induction 1 as [|x xs Hx _ IH]; simpl; [done|]. by rewrite Hx, IH. Qed.

(** X17: acquire, wait, extend.  After the [acquire] of X10 and a wait of
    [ms] (the clock moves by [max ms 1]), [extend] with the token returns
    and moves the expiry of every mock to [now + newTtl] if the wait was
    shorter than [ttl]; if the lock has expired meanwhile, [extend]
    throws and changes no mock. *)
Theorem extend_after_wait_on_mocks (options : option RedlockOptions) (resource : string)
  (ttl newTtl ms : Z) (w : TestWorld) (l : list Entry) (fuel : nat) :
  let this := new_Redlock (mock_clients Number_of_string w) options in
  mock_data w <> [] ->
  Forall (fun d => mock_holds (mock_clock w) resource d = None) (mock_data w) ->
  0 < retryCount this ->
  3 <= ttl ->
  exists token s1 s2,
    acquire this (S fuel) resource ttl (mkState w l) = Some (Return token, s1) /\
    sleep ms s1 = (Return tt, s2) /\
    let now := mock_clock w + Z.max ms 1 in
    let calls :=
      map (fun i => CalledEval i extendScript [resource] [ArgStr token; ArgNum newTtl])
          (seq 0 (length (mock_data w))) in
    extend this resource token newTtl s2 =
    if Z.max ms 1 <? ttl then
      (Return tt,
       mkState
         {| mock_data :=
              map (fun d => <[resource := {| entry_value := token;
                                             entry_expiresAt := Finite (now + newTtl) |}]> d)
                  (mock_data w);
            mock_clock := now; mock_entropy := N.succ (mock_entropy w) |}
         (log s2 ++ calls ++ [Emitted (lockExtended resource token newTtl)]))
    else
      (Throw not_extended,
       mkState (world s2) (log s2 ++ calls ++ [Emitted (error not_extended)])).
Proof.
  intros this Hne Hfree Hrc Httl.
  eexists _, _, _.
  split; [by apply acquire_free_run|].
  split; [apply sleep_run|].
  cbv zeta. cbn [world log setTimeout TestWorld_Runtime mock_data mock_clock mock_entropy].
  set (token := toString_hex _).
  set (w2 := {| mock_data := map _ (mock_data w) |}).
  assert (Hthis2 : this = new_Redlock (mock_clients Number_of_string w2) options).
  { unfold this. f_equal. apply mock_clients_same. subst w2. simpl. by rewrite length_map. }
  rewrite Hthis2, extend_mocks_run. rewrite <- Hthis2.
  subst w2. cbn [mock_data mock_clock mock_entropy]. rewrite length_map.
  assert (Hholds : forall d : gmap string MockEntry,
    mock_holds (mock_clock w + Z.max ms 1) resource
      (<[resource := {| entry_value := token;
                        entry_expiresAt := Finite (mock_clock w + ttl) |}]> d)
    = if Z.max ms 1 <? ttl then Some token else None).
  { intros d. unfold mock_holds. rewrite lookup_insert_eq. simpl.
    destruct (Z.gtb_spec (mock_clock w + ttl) (mock_clock w + Z.max ms 1)),
             (Z.ltb_spec (Z.max ms 1) ttl); try done; lia. }
  destruct (Z.ltb_spec (Z.max ms 1) ttl) as [Hlt|Hge].
  - rewrite List_filter_all; last first.
    { apply Forall_map, Forall_forall. intros d _. simpl.
      by rewrite Hholds, bool_decide_eq_true_2. }
    rewrite length_map.
    assert (Hq : (Z.of_nat (length (mock_data w)) >=? quorum this) = true).
    { apply Z.geb_le. simpl quorum. unfold mock_clients. rewrite length_fmap, length_seq.
      destruct (mock_data w); [done|]. simpl length. Z.div_mod_to_equations. lia. }
    rewrite Hq. do 3 f_equal. rewrite map_map. apply map_ext. intros d.
    rewrite Hholds, bool_decide_eq_true_2 by done. apply insert_insert_eq.
  - rewrite List_filter_none; last first.
    { apply Forall_map, Forall_forall. intros d _. simpl.
      by rewrite Hholds, bool_decide_eq_false_2. }
    assert (Hq : (Z.of_nat (length (@nil (gmap string MockEntry))) >=? quorum this) = false).
    { destruct (Z.geb_spec (Z.of_nat (length (@nil (gmap string MockEntry)))) (quorum this))
        as [Hq|]; [|done].
      simpl in Hq. Z.div_mod_to_equations. lia. }
    rewrite Hq. do 3 f_equal. rewrite map_map.
    apply map_ext. intros d. by rewrite Hholds, bool_decide_eq_false_2.
Qed.

(** X18: [MockRedisClient.eval] on calls the coordinator never makes.
    Without a key, or with a first argument that is no string, it answers
    0 and changes nothing.  The extend script without a second argument
    answers 1 on a held key and leaves it with the expiry [NaN]: from
    then on the key is held at no time. *)
Theorem Mock_eval_on_malformed_calls (now : Z) (script : Script) (key lockId : string)
  (args : list Arg) (n : Z) (data : gmap string MockEntry) :
  Mock_eval Number_of_string now script [] args data = (0, data) /\
  Mock_eval Number_of_string now script [key] [] data = (0, data) /\
  Mock_eval Number_of_string now script [key] (ArgNum n :: args) data = (0, data) /\
  (mock_holds now key data <> Some lockId \/
   exists data',
     Mock_eval Number_of_string now extendScript [key] [ArgStr lockId] data = (1, data') /\
     forall t, mock_holds t key data' = None).
Proof.
  split; [done|]. split.
  { unfold Mock_eval. simpl. by destruct (data !! key). }
  split.
  { unfold Mock_eval. simpl. by destruct (data !! key). }
  destruct (decide (mock_holds now key data = Some lockId)) as [Hheld|]; [right|by left].
  unfold mock_holds in Hheld. unfold Mock_eval. simpl.
  destruct (data !! key) as [e|]; [|done].
  destruct (expires_after _ _); [|done]. injection Hheld as ->.
  rewrite bool_decide_eq_true_2 by done. simpl.
  eexists. split; [reflexivity|].
  intros t. unfold mock_holds. by rewrite lookup_insert_eq.
Qed.

End MockExtend.

(** ** The further theorems at work *)

Lemma acquire_trace_counts_witness :
  exists c s' ext k,
    acquire node_redlock 4 "r" 1000 (held_until 50) = Some (c, s') /\
    log s' = log (held_until 50) ++ ext /\
    failed_attempts ext = seqZ 0 k /\
    sleeps ext = replicate (Z.to_nat k) (retryDelay node_redlock).
Proof.
  assert (Hrun : exists c s', acquire node_redlock 4 "r" 1000 (held_until 50) = Some (c, s')).
  { eexists _, _. by vm_compute. }
  destruct Hrun as (c & s' & Hrun).
  destruct (acquire_trace_counts node_redlock 4 "r" 1000 (held_until 50) s' c Hrun)
    as (ext & k & Hlog & _ & Hfail & Hsleep & _).
  exists c, s', ext, k. auto.
Defined.

Lemma acquire_with_negative_retryCount_witness :
  exists s',
    acquire (new_Redlock [NodeRedisAdapter 0]
               (Some {| option_retryCount := Some (-1); option_retryDelay := None |}))
            1 "r" 1000 (cluster_of [idle_server])
    = Some (Throw exhausted, s').
Proof.
  destruct (acquire_with_negative_retryCount [NodeRedisAdapter 0] (-1) None 0 "r" 1000
              (cluster_of [idle_server])) as (_ & s' & Hrun & _); [lia|].
  by exists s'.
Defined.

Lemma generateLockId_is_32_hex_digits_witness :
  exists token s',
    generateLockId (cluster_of []) = (Return token, s') /\
    String.length token = 32%nat.
Proof.
  eexists _, _. split; [reflexivity|].
  eapply proj1.
  eapply (generateLockId_is_32_hex_digits (cluster_of [])); reflexivity.
Defined.

Lemma equal_tokens_equal_draws_witness :
  (randomBytes 16 (world (cluster_of []))).1
  = (randomBytes 16 (world (cluster_of [idle_server]))).1.
Proof.
  eapply (equal_tokens_equal_draws (cluster_of []) _ (cluster_of [idle_server])); reflexivity.
Defined.

Lemma acquire_on_free_mocks_witness :
  exists token s',
    acquire (test_redlock three_mocks) 1 "r" 1000 (mkState three_mocks [])
    = Some (Return token, s').
Proof.
  eexists _, _.
  apply (acquire_on_free_mocks Number_sample _ "r" 1000 three_mocks [] 0).
  - done.
  - repeat constructor.
  - reflexivity.
  - lia.
Defined.

Lemma acquire_release_acquire_on_mocks_witness :
  exists token s1 s2 token' s3,
    acquire (test_redlock three_mocks) 1 "r" 1000 (mkState three_mocks [])
      = Some (Return token, s1) /\
    release (test_redlock three_mocks) "r" token s1 = (Return tt, s2) /\
    mock_data (world s2) = map (delete "r"%string) (mock_data three_mocks) /\
    acquire (test_redlock three_mocks) 1 "r" 1000 s2 = Some (Return token', s3).
Proof.
  apply (acquire_release_acquire_on_mocks Number_sample _ "r" 1000 three_mocks [] 0).
  - done.
  - repeat constructor.
  - reflexivity.
  - lia.
Defined.

Lemma acquire_fails_while_held_on_mocks_witness :
  exists s',
    acquire (test_redlock two_mocks_held) 4 "r" 1000 (mkState two_mocks_held [])
    = Some (Throw exhausted, s').
Proof.
  destruct (acquire_fails_while_held_on_mocks Number_sample
              (Some {| option_retryCount := Some 3; option_retryDelay := Some 100 |})
              "r" 1000 two_mocks_held []) as (s' & Hrun & _).
  - by vm_compute.
  - by exists s'.
Defined.

Lemma lock_on_mocks_lapses_with_ttl_witness :
  exists token s1,
    acquire (test_redlock three_mocks) 1 "r" 1000 (mkState three_mocks [])
      = Some (Return token, s1) /\
    Forall (fun d => mock_holds 999 "r" d = Some token) (mock_data (world s1)) /\
    Forall (fun d => mock_holds 1000 "r" d = None) (mock_data (world s1)).
Proof.
  destruct (lock_on_mocks_lapses_with_ttl Number_sample
              (Some {| option_retryCount := Some 3; option_retryDelay := Some 100 |})
              "r" 1000 three_mocks [] 0) as (token & s1 & Hrun & Hlife).
  - done.
  - repeat constructor.
  - reflexivity.
  - lia.
  - exists token, s1. split; [exact Hrun|]. split; [apply (Hlife 999)|apply (Hlife 1000)].
Defined.

Lemma acquire_with_tiny_ttl_on_mocks_witness :
  exists s',
    acquire (test_redlock three_mocks) 1 "r" 2 (mkState three_mocks [])
    = Some (Throw expired, s').
Proof.
  eexists.
  apply (acquire_with_tiny_ttl_on_mocks Number_sample _ "r" 2 three_mocks [] 0).
  - done.
  - repeat constructor.
  - reflexivity.
  - lia.
Defined.

Lemma NodeRedisAdapter_set_never_overwrites_witness :
  exists w',
    client_set (NodeRedisAdapter 0) "r" "B" {| nx := Some false; px := None |}
               (world (held_until 5000))
    = (Return null, w').
Proof.
  destruct (NodeRedisAdapter_set_never_overwrites (world (held_until 5000)) 0
              (held_server "r" "A" 5000) "r" "B" {| nx := Some false; px := None |})
    as (w' & Hset & _).
  - reflexivity.
  - reflexivity.
  - eexists. by vm_compute.
  - by exists w'.
Defined.

Lemma IORedisAdapter_set_is_conditional_iff_nx_witness :
  exists w',
    client_set (IORedisAdapter 0) "r" "B" {| nx := Some true; px := Some 1000 |}
               (world (held_until 5000))
    = (Return null, w').
Proof.
  destruct (IORedisAdapter_set_is_conditional_iff_nx (world (held_until 5000)) 0
              (held_server "r" "A" 5000) "r" "B" {| nx := Some true; px := Some 1000 |})
    as (w' & srv' & Hset & _).
  - reflexivity.
  - reflexivity.
  - eexists. by vm_compute.
  - by exists w'.
Defined.

Lemma extend_after_wait_on_mocks_witness :
  exists token s1 s2 s3,
    acquire (test_redlock three_mocks) 1 "r" 1000 (mkState three_mocks [])
      = Some (Return token, s1) /\
    sleep 500 s1 = (Return tt, s2) /\
    extend (test_redlock three_mocks) "r" token 2000 s2 = (Return tt, s3).
Proof.
  destruct (extend_after_wait_on_mocks Number_sample
              (Some {| option_retryCount := Some 3; option_retryDelay := Some 100 |})
              "r" 1000 2000 500 three_mocks [] 0) as (token & s1 & s2 & Hrun & Hsl & Hext).
  - done.
  - repeat constructor.
  - reflexivity.
  - lia.
  - exists token, s1, s2. eexists. split; [exact Hrun|]. split; [exact Hsl|]. exact Hext.
Defined.

Section MockLock.
Variable Number_of_string : string -> JsNumber.

(** X19: [lockInstances] over the mocks, in full: its result is the
    number of mocks on which the resource is absent or expired; exactly
    those mocks get the entry of the token, with expiry [now + ttl], or
    without expiry when [ttl] is 0; a mock that holds the resource,
    under whatever token, keeps its map, and no [lockError] is emitted. *)
Theorem lockInstances_on_mocks (options : option RedlockOptions) (resource lockId : string)
  (ttl : Z) (w : TestWorld) (l : list Entry) :
  let this := new_Redlock (mock_clients Number_of_string w) options in
  let free d := bool_decide (mock_holds (mock_clock w) resource d = None) in
  lockInstances this resource lockId ttl (mkState w l) =
  (Return (Z.of_nat (length (List.filter free (mock_data w)))),
   mkState
     {| mock_data :=
          map (fun d => if free d
                        then <[resource := {| entry_value := lockId;
                                              entry_expiresAt :=
                                                if ttl =? 0 then Infinity
                                                else Finite (mock_clock w + ttl) |}]> d
                        else d) (mock_data w);
        mock_clock := mock_clock w; mock_entropy := mock_entropy w |}
     (l ++ map (fun i => CalledSet i resource lockId {| nx := None; px := Some ttl |})
               (seq 0 (length (mock_data w))))).
Proof.
  cbv zeta. rewrite lockInstances_run. cbn [clients new_Redlock world log].
  rewrite lock_fanout_on_mocks. cbn [fst snd]. rewrite votes_on_mocks.
  unfold lock_log.
  rewrite fan_log_returned.
  do 3 f_equal. apply map_ext. intros d. rewrite Mock_set_holds.
  by destruct (mock_holds (mock_clock w) resource d).
Qed.

End MockLock.
